(** * Bak-Tang-Wiesenfeld sandpile ([bak_sandpiles.py]): model and properties

    The sandpile engine of the repository is embedded as executable
    functions over a two-dimensional array of 64-bit integers.  The
    global variables [grid], [avalanche_sizes] and [total_drops] of the
    script become the fields of one record that every operation takes
    and returns. *)

From Stdlib Require Import ZArith Lia List Permutation.
From stdpp Require Import base tactics option numbers list.

Local Open Scope Z_scope.

(** ** NumPy [int64] cells *)

Module Int64.

Definition min_int : Z := - 2 ^ 63.
Definition max_int : Z := 2 ^ 63 - 1.

(** Two's-complement wrap-around of fixed-width integer arithmetic. *)
Definition wrap (z : Z) : Z := (z + 2 ^ 63) mod 2 ^ 64 - 2 ^ 63.

Definition add (a b : Z) : Z := wrap (a + b).
Definition sub (a b : Z) : Z := wrap (a - b).

Definition in_range (z : Z) : Prop := min_int <= z <= max_int.

End Int64.

(** ** Two-dimensional arrays, indexed [(row, col)] *)

Abbreviation array2 := (list (list Z)).

(** [a[y, x]] *)
Definition cell (a : array2) (y x : nat) : Z := (a !!! y) !!! x.

(** [a[y, x] = f(a[y, x])].  Every indexed write of the script is
    guarded by a bounds test or uses an index returned by [np.where],
    so the out-of-range behaviour (no change here) is never exercised. *)
Definition upd (a : array2) (y x : nat) (f : Z → Z) : array2 :=
  alter (alter f x) y a.

(** [np.zeros_like(a)] *)
Definition zeros_like (a : array2) : array2 := 
  (λ row : list Z, (λ _ : Z, 0) <$> row) <$> a.

(** [a += b], element-wise. *)
Definition add_arrays (a b : array2) : array2 :=
  zip_with (zip_with Int64.add) a b.

(** [np.any(a >= 4)] *)
Definition any_ge4 (a : array2) : bool := existsb (existsb (Z.leb 4)) a.

(** [np.where(a >= 4)]: the coordinates [(y, x)] of the cells at or
    above the threshold, in row-major order. *)
Definition where_ge4 (a : array2) : list (nat * nat) :=
  y ← seq 0 (length a);
  x ← seq 0 (length (a !!! y));
  if 4 <=? cell a y x then [(y, x)] else [].

(** Shape [(n, n)] and cell range of an [int64] array. *)
Definition shape_ok (n : nat) (a : array2) : Prop :=
  length a = n ∧ Forall (λ row, length row = n) a.

Definition cells_ok (a : array2) : Prop :=
  Forall (Forall Int64.in_range) a.

Definition valid_grid (n : nat) (a : array2) : Prop :=
  shape_ok n a ∧ cells_ok a.

(** All cells below the threshold. *)
Definition stable (a : array2) : Prop :=
  Forall (Forall (λ v, v < 4)) a.

(** Sum of all cells (the total mass of sand on the grid). *)
Definition sumZ (l : list Z) : Z := foldr Z.add 0 l.
Definition mass (a : array2) : Z := sumZ (sumZ <$> a).

(** ** Simulation state: the module-level globals *)

Record sim : Type := Sim {
  grid : array2;
  avalanche_sizes : list Z;
  total_drops : Z
}.

Section Sandpile.

Variable GRID_SIZE : nat.

(** [add_sand(x, y)] *)
Definition add_sand (x y : Z) (s : sim) : sim :=
  if (0 <=? x) && (x <? Z.of_nat GRID_SIZE)
     && (0 <=? y) && (y <? Z.of_nat GRID_SIZE)
  then
    {| grid := upd (grid s) (Z.to_nat y) (Z.to_nat x) (λ v, Int64.add v 1);
       avalanche_sizes := avalanche_sizes s;
       total_drops := total_drops s + 1 |}
  else s.

(** Body of the [for y, x in zip(...)] loop of [topple]: the pair is
    [(grid, additions)].  [GRID_SIZE - 1] is the truncated difference
    on [nat]; for [GRID_SIZE = 0] the script compares with [-1], and
    both tests are false for every index. *)
Definition topple_cell (st : array2 * array2) (i : nat * nat)
  : array2 * array2 :=
  let '(g, additions) := st in
  let '(y, x) := i in
  let g := upd g y x (λ v, Int64.sub v 4) in
  let additions :=
    if (0 <? x)%nat
    then upd additions y (x - 1) (λ v, Int64.add v 1) else additions in
  let additions :=
    if (x <? GRID_SIZE - 1)%nat
    then upd additions y (x + 1) (λ v, Int64.add v 1) else additions in
  let additions :=
    if (0 <? y)%nat
    then upd additions (y - 1) x (λ v, Int64.add v 1) else additions in
  let additions :=
    if (y <? GRID_SIZE - 1)%nat
    then upd additions (y + 1) x (λ v, Int64.add v 1) else additions in
  (g, additions).

(** One iteration of the [while] loop for the index list [idx],
    processed from left to right: fresh [additions], the [for] loop,
    then [grid += additions]. *)
Definition topple_pass_on (idx : list (nat * nat)) (g : array2) : array2 :=
  let '(g', additions) := foldl topple_cell (g, zeros_like g) idx in
  add_arrays g' additions.

(** The pass as the script runs it, on the indices of [np.where]. *)
Definition topple_pass (g : array2) : array2 :=
  topple_pass_on (where_ge4 g) g.

(** The [while np.any(grid >= 4)] loop with the running total.  One
    unit of fuel is spent per evaluation of the loop condition; [None]
    means the fuel ran out before the loop exited. *)
Fixpoint topple_loop (fuel : nat) (g : array2) (total : Z)
  : option (array2 * Z) :=
  match fuel with
  | O => None
  | S fuel' =>
      if any_ge4 g then
        let idx := where_ge4 g in
        if (length idx =? 0)%nat then Some (g, total)
        else topple_loop fuel' (topple_pass g) (total + Z.of_nat (length idx))
      else Some (g, total)
  end.

(** [topple()]: returns the avalanche size and the new state. *)
Definition topple (fuel : nat) (s : sim) : option (Z * sim) :=
  '(g, total) ← topple_loop fuel (grid s) 0;
  Some (total, {| grid := g;
                  avalanche_sizes := avalanche_sizes s;
                  total_drops := total_drops s |}).

(** [record_avalanche(size)] *)
Definition record_avalanche (size : Z) (s : sim) : sim :=
  if 0 <? size then
    {| grid := grid s;
       avalanche_sizes := avalanche_sizes s ++ [size];
       total_drops := total_drops s |}
  else s.

(** One drop of the simulation step in [main]: add a grain, relax,
    record.  [main] always passes the centre cell. *)
Definition drop_step (fuel : nat) (s : sim) (xy : Z * Z) : option sim :=
  let s := add_sand xy.1 xy.2 s in
  '(size, s) ← topple fuel s;
  Some (record_avalanche size s).

Fixpoint drop_all (fuel : nat) (s : sim) (drops : list (Z * Z))
  : option sim :=
  match drops with
  | [] => Some s
  | xy :: rest => s' ← drop_step fuel s xy; drop_all fuel s' rest
  end.

Definition centre : Z * Z :=
  (Z.of_nat GRID_SIZE `div` 2, Z.of_nat GRID_SIZE `div` 2).

(** The [for _ in range(k)] loop of [main] for [k] drops per frame. *)
Definition simulation_step (fuel k : nat) (s : sim) : option sim :=
  drop_all fuel s (replicate k centre).

End Sandpile.


(** ** Quantities used to state the properties *)

(** Finite sums over [0 ≤ i < n] and over the cells of an [n × n] grid. *)
Fixpoint sumn (n : nat) (f : nat → Z) : Z :=
  match n with
  | O => 0
  | S k => sumn k f + f k
  end.

Definition gsum (n : nat) (F : nat → nat → Z) : Z :=
  sumn n (λ y, sumn n (F y)).

Definition ind (b : bool) : Z := if b then 1 else 0.

(** Coordinates inside an [n × n] grid. *)
Definition in_grid (n : nat) (i : nat * nat) : Prop :=
  (i.1 < n)%nat ∧ (i.2 < n)%nat.

(** Number of occurrences of the coordinate [i] in an index list. *)
Definition occ (i : nat * nat) (l : list (nat * nat)) : Z :=
  sumZ ((λ j, ind (bool_decide (j = i))) <$> l).

(** Grains that one execution of the loop body for the cell [src] adds
    to [additions[dst]]: one per guarded assignment that targets [dst]. *)
Definition delivers (n : nat) (src dst : nat * nat) : Z :=
  let '(y, x) := src in
  ind ((0 <? x)%nat && bool_decide (dst = (y, x - 1)%nat))
  + ind ((x <? n - 1)%nat && bool_decide (dst = (y, x + 1)%nat))
  + ind ((0 <? y)%nat && bool_decide (dst = (y - 1, x)%nat))
  + ind ((y <? n - 1)%nat && bool_decide (dst = (y + 1, x)%nat)).

(** Grains that [additions[dst]] receives from a whole index list. *)
Definition received (n : nat) (l : list (nat * nat)) (dst : nat * nat) : Z :=
  sumZ ((λ src, delivers n src dst) <$> l).

(** Of the four grains removed from the toppling cell [(y, x)], how
    many the loop body puts back on the grid, and how many it drops. *)
Definition delivered_at (n : nat) (i : nat * nat) : Z :=
  let '(y, x) := i in
  ind (0 <? x)%nat + ind (x <? n - 1)%nat
  + ind (0 <? y)%nat + ind (y <? n - 1)%nat.

Definition lost_at (n : nat) (i : nat * nat) : Z := 4 - delivered_at n i.

(** Grains lost off the boundary by the pass that starts from [g]. *)
Definition pass_loss (n : nat) (g : array2) : Z :=
  sumZ (lost_at n <$> where_ge4 g).

(** Grains lost by all passes of one [topple] call: the recursion of
    [topple_loop], accumulating the loss instead of the size. *)
Fixpoint topple_lost (n : nat) (fuel : nat) (g : array2) : Z :=
  match fuel with
  | O => 0
  | S fuel' =>
      if any_ge4 g then
        if (length (where_ge4 g) =? 0)%nat then 0
        else pass_loss n g + topple_lost n fuel' (topple_pass n g)
      else 0
  end.

(** Grains lost by all [topple] calls of a sequence of drops. *)
Fixpoint drop_all_lost (n : nat) (fuel : nat) (s : sim)
  (drops : list (Z * Z)) : Z :=
  match drops with
  | [] => 0
  | xy :: rest =>
      topple_lost n fuel (grid (add_sand n xy.1 xy.2 s))
      + match drop_step n fuel s xy with
        | Some s' => drop_all_lost n fuel s' rest
        | None => 0
        end
  end.

(** Whether a drop is accepted by the bounds test of [add_sand]. *)
Definition in_bounds (n : nat) (xy : Z * Z) : bool :=
  (0 <=? xy.1) && (xy.1 <? Z.of_nat n) && (0 <=? xy.2) && (xy.2 <? Z.of_nat n).

(** The value of cell [(y, x)] after one pass, read off the grid before
    the pass: minus four if the cell is at the threshold, plus one for
    each neighbour inside the grid that is at the threshold. *)
Definition unstable_at (n : nat) (g : array2) (y x : nat) : Z :=
  ind ((y <? n)%nat && (x <? n)%nat && (4 <=? cell g y x)).

Definition relaxed (n : nat) (g : array2) (y x : nat) : Z :=
  cell g y x - 4 * unstable_at n g y x
  + unstable_at n g y (x + 1)
  + ind (0 <? x)%nat * unstable_at n g y (x - 1)
  + unstable_at n g (y + 1) x
  + ind (0 <? y)%nat * unstable_at n g (y - 1) x.

(** Change of the weighted total [Σ w y x * grid[y, x]] caused by one
    toppling of the cell [i]: four grains leave [i], one arrives at
    each neighbour that passes the bounds test. *)
Definition drift (n : nat) (w : nat → nat → Z) (i : nat * nat) : Z :=
  let '(y, x) := i in
  ind (0 <? x)%nat * w y (x - 1)%nat
  + ind (x <? n - 1)%nat * w y (x + 1)%nat
  + ind (0 <? y)%nat * w (y - 1)%nat x
  + ind (y <? n - 1)%nat * w (y + 1)%nat x
  - 4 * w y x.

(** Potential that every toppling lowers: each grain in column [x]
    weighs [(x + 1) (n - x)], with the cells counted from a lower
    bound [lo] of their values. *)
Definition weight (n x : nat) : Z :=
  (Z.of_nat x + 1) * (Z.of_nat n - Z.of_nat x).

Definition energy (n : nat) (lo : Z) (g : array2) : Z :=
  gsum n (λ y x, weight n x * (cell g y x - lo)).

Definition bounded_below (lo : Z) (a : array2) : Prop :=
  Forall (Forall (λ v, lo <= v)) a.

(** The [while] loop of [topple] when the cells found unstable in a
    pass are enumerated by an arbitrary [enum] instead of [np.where]. *)
Fixpoint topple_loop_by (n : nat) (enum : array2 → list (nat * nat))
  (fuel : nat) (g : array2) (total : Z) : option (array2 * Z) :=
  match fuel with
  | O => None
  | S fuel' =>
      if any_ge4 g then
        let idx := enum g in
        if (length idx =? 0)%nat then Some (g, total)
        else topple_loop_by n enum fuel' (topple_pass_on n idx g)
               (total + Z.of_nat (length idx))
      else Some (g, total)
  end.

(** The state at start-up: [np.zeros((GRID_SIZE, GRID_SIZE), dtype=int)],
    an empty series and a zero drop counter. *)
Definition initial_state (n : nat) : sim :=
  {| grid := replicate n (replicate n 0);
     avalanche_sizes := [];
     total_drops := 0 |}.

(** ** The statistics of [plot_avalanches_enhanced] *)

(** The floating-point operations of NumPy and SciPy that the function
    calls.  Their numeric results are not modelled; the one law is the
    shape of the result of [np.histogram], one count per bin. *)
Class NumLib (F : Type) : Type := {
  log10_int : Z → F;
  log10 : F → F;
  logspace : F → F → nat → list F;
  histogram : list Z → list F → list Z;
  geo_mean : F → F → F;
  linregress : list F → list F → F * F * F;
  one_minus : F → F;
  line : F → F → F → F;
  pow10 : F → F;
  histogram_length sizes bins :
    length (histogram sizes bins) = pred (length bins)
}.

(** What the function prints and hands to the plotting library. *)
Inductive report (F : Type) : Type :=
  | NoAvalanches
  | NotEnoughData
  | FitResults (slope intercept r_value : F)
  | Exponent (tau : F)
  | Scatter (centers : list F) (counts : list Z)
  | FitLine (xs ys : list F)
  | Figure (recorded : nat) (drops : Z).

Arguments NoAvalanches {F}.
Arguments NotEnoughData {F}.
Arguments FitResults {F}.
Arguments Exponent {F}.
Arguments Scatter {F}.
Arguments FitLine {F}.
Arguments Figure {F}.

(** [xs[mask]] for a boolean mask. *)
Fixpoint select {A : Type} (mask : list bool) (xs : list A) : list A :=
  match mask, xs with
  | b :: mask', x :: xs' =>
      if b then x :: select mask' xs' else select mask' xs'
  | _, _ => []
  end.

Section Statistics.

Context {F : Type} `{NumLib F}.

(** [min(l)] and [max(l)] of a non-empty list. *)
Definition py_min (l : list Z) : Z :=
  match l with [] => 1 | v :: l' => foldl Z.min v l' end.
Definition py_max (l : list Z) : Z :=
  match l with [] => 1 | v :: l' => foldl Z.max v l' end.

Definition bin_edges (sizes : list Z) : list F :=
  logspace (log10_int (Z.max 1 (py_min sizes)))
           (log10_int (py_max sizes + 1)) 50.

Definition bin_counts (sizes : list Z) : list Z :=
  histogram sizes (bin_edges sizes).

(** [np.sqrt(bin_edges[:-1] * bin_edges[1:])] *)
Definition bin_centers (sizes : list Z) : list F :=
  zip_with geo_mean (removelast (bin_edges sizes)) (tail (bin_edges sizes)).

Definition nonzero_mask (sizes : list Z) : list bool :=
  (λ c, 0 <? c) <$> bin_counts sizes.

Definition filtered_centers (sizes : list Z) : list F :=
  select (nonzero_mask sizes) (bin_centers sizes).

Definition filtered_counts (sizes : list Z) : list Z :=
  select (nonzero_mask sizes) (bin_counts sizes).

Definition plot_avalanches_enhanced (s : sim) : list (report F) :=
  let sizes := avalanche_sizes s in
  match sizes with
  | [] => [NoAvalanches]
  | _ :: _ =>
      (if (length (filtered_centers sizes) <? 2)%nat then
         [NotEnoughData;
          Scatter (filtered_centers sizes) (filtered_counts sizes)]
       else
         let log_x := log10 <$> filtered_centers sizes in
         let log_y := log10_int <$> filtered_counts sizes in
         let '(slope, intercept, r_value) := linregress log_x log_y in
         let tau_exponent := one_minus slope in
         [FitResults slope intercept r_value;
          Exponent tau_exponent;
          Scatter (filtered_centers sizes) (filtered_counts sizes);
          FitLine (pow10 <$> log_x)
                  (pow10 <$> (line slope intercept <$> log_x))])
      ++ [Figure (length sizes) (total_drops s)]
  end.

(** Whether a fit was computed and reported. *)
Definition is_fit (r : report F) : bool :=
  match r with
  | FitResults _ _ _ | Exponent _ | FitLine _ _ => true
  | _ => false
  end.

End Statistics.

(** A stand-in numeric library over [Z], for running the statistics on
    concrete series: every edge is 0 and the first bin takes the whole
    series. *)
Definition toy_histogram (sizes bins : list Z) : list Z :=
  match pred (length bins) with
  | O => []
  | S k => Z.of_nat (length sizes) :: replicate k 0
  end.

Lemma toy_histogram_length sizes bins :
  length (toy_histogram sizes bins) = pred (length bins).
Proof.
  unfold toy_histogram. destruct (pred (length bins)); [done|].
  simpl. by rewrite length_replicate.
Qed.

(** A state whose recorded avalanches all have the same size. *)
Definition same_size_state : sim :=
  {| grid := []; avalanche_sizes := [3; 3; 3]; total_drops := 12 |}.

Definition toy_numlib : NumLib Z :=
  {| log10_int := λ v, v;
     log10 := λ v, v;
     logspace := λ _ _ k, replicate k 0;
     histogram := toy_histogram;
     geo_mean := λ a _, a;
     linregress := λ _ _, (0, 0, 0);
     one_minus := λ v, 1 - v;
     line := λ a b x, a * x + b;
     pow10 := λ v, v;
     histogram_length := toy_histogram_length |}.

(** ** Drawing: [draw_grid] *)

Definition colour : Type := Z * Z * Z.

Definition BACKGROUND_COLOR : colour := (15, 15, 25).

Definition PYGAME_COLORS : list colour :=
  [(15, 15, 25); (30, 60, 100); (80, 40, 120); (180, 70, 100); (240, 240, 50)].

(** The calls made on the screen: [screen.fill(c)] and
    [pygame.draw.rect(screen, c, (left, top, width, height))]. *)
Inductive draw_op : Type :=
  | Fill (c : colour)
  | Rect (c : colour) (rleft rtop rwidth rheight : Z).

(** [l[i]] of a Python list: a negative index counts from the end, and
    an index outside [-len, len) raises [IndexError] ([None]). *)
Definition py_index {A : Type} (l : list A) (i : Z) : option A :=
  if 0 <=? i then l !! Z.to_nat i
  else if - Z.of_nat (length l) <=? i
       then l !! Z.to_nat (Z.of_nat (length l) + i)
       else None.

(** [np.where(a > 0)], in row-major order. *)
Definition where_gt0 (a : array2) : list (nat * nat) :=
  y ← seq 0 (length a);
  x ← seq 0 (length (a !!! y));
  if 0 <? cell a y x then [(y, x)] else [].

Section Drawing.

Variables (WIDTH : Z) (GRID_SIZE : nat).

(** [CELL_SIZE = WIDTH // GRID_SIZE] *)
Definition CELL_SIZE : Z := WIDTH `div` Z.of_nat GRID_SIZE.

(** Body of the loop of [draw_grid]; the products of a NumPy index and
    [CELL_SIZE] are [int64] products. *)
Definition draw_cell (g : array2) (i : nat * nat) : option draw_op :=
  let '(y, x) := i in
  let color_index :=
    Z.min (cell g y x) (Z.of_nat (length PYGAME_COLORS) - 1) in
  color ← py_index PYGAME_COLORS color_index;
  Some (Rect color
          (Int64.wrap (Z.of_nat x * CELL_SIZE))
          (Int64.wrap (Z.of_nat y * CELL_SIZE))
          (CELL_SIZE - 1) (CELL_SIZE - 1)).

(** [draw_grid()]: the list of screen calls, or [None] if a palette
    lookup raises. *)
Definition draw_grid (g : array2) : option (list draw_op) :=
  rects ← mapM (draw_cell g) (where_gt0 g);
  Some (Fill BACKGROUND_COLOR :: rects).

(** The pixels covered by a rectangle. *)
Definition covers (op : draw_op) (px py : Z) : Prop :=
  match op with
  | Fill _ => True
  | Rect _ rleft rtop rwidth rheight =>
      rleft <= px < rleft + rwidth ∧ rtop <= py < rtop + rheight
  end.

End Drawing.

Definition op_colour (op : draw_op) : colour :=
  match op with
  | Fill c => c
  | Rect c _ _ _ _ => c
  end.

(** ** The main loop *)

(** The events that [main] tells apart, and the keys. *)
Inductive key : Type := K_SPACE | K_p | K_other.

Inductive event : Type :=
  | QUIT
  | KEYDOWN (k : key)
  | OTHER_EVENT.

(** What [main] prints, plots and shows. *)
Inductive output (F : Type) : Type :=
  | PrintPaused
  | PrintResumed
  | PrintPlottingCurrent
  | PrintNoAvalanchesYet
  | Plot (r : list (report F))
  | PrintStatus (frames drops : Z) (recorded : nat)
  | Display (ops : list draw_op)
  | PrintEnded (drops : Z) (recorded : nat)
  | PrintPlottingFinal.

Arguments PrintPaused {F}.
Arguments PrintResumed {F}.
Arguments PrintPlottingCurrent {F}.
Arguments PrintNoAvalanchesYet {F}.
Arguments Plot {F}.
Arguments PrintStatus {F}.
Arguments Display {F}.
Arguments PrintEnded {F}.
Arguments PrintPlottingFinal {F}.

(** The local variables of [main] together with the globals. *)
Record loop_state : Type := LoopState {
  running : bool;
  paused : bool;
  frame_count : Z;
  world : sim
}.

Section Main.

Context {F : Type} `{NumLib F}.

Variables (WIDTH : Z) (GRID_SIZE SAND_DROPS_PER_FRAME : nat).

(** Body of [for event in pygame.event.get()]. *)
Definition handle_event (st : loop_state * list (output F)) (e : event)
  : loop_state * list (output F) :=
  let '(l, out) := st in
  match e with
  | QUIT =>
      ({| running := false; paused := paused l;
          frame_count := frame_count l; world := world l |}, out)
  | KEYDOWN K_SPACE =>
      let p := negb (paused l) in
      ({| running := running l; paused := p;
          frame_count := frame_count l; world := world l |},
       out ++ [if p then PrintPaused else PrintResumed])
  | KEYDOWN K_p =>
      match avalanche_sizes (world l) with
      | [] => (l, out ++ [PrintNoAvalanchesYet])
      | _ :: _ =>
          (l, out ++ [PrintPlottingCurrent;
                      Plot (plot_avalanches_enhanced (world l))])
      end
  | KEYDOWN K_other | OTHER_EVENT => (l, out)
  end.

(** One iteration of [while running], for the events that
    [pygame.event.get()] returns in it. *)
Definition frame (fuel : nat) (events : list event) (l : loop_state)
  : option (loop_state * list (output F)) :=
  let '(l, out) := foldl handle_event (l, []) events in
  '(l, out) ←
    (if paused l then Some (l, out)
     else
       w ← simulation_step GRID_SIZE fuel SAND_DROPS_PER_FRAME (world l);
       let count := frame_count l + 1 in
       Some ({| running := running l; paused := paused l;
                frame_count := count; world := w |},
             out ++
             if count `mod` 100 =? 0
             then [PrintStatus count (total_drops w)
                     (length (avalanche_sizes w))]
             else []));
  ops ← draw_grid WIDTH GRID_SIZE (grid (world l));
  Some (l, out ++ [Display ops]).

(** The [while running] loop over the event batches of successive
    iterations; [None] when the batches or the fuel run out while
    [running] still holds. *)
Fixpoint main_loop (fuel : nat) (frames : list (list event))
  (l : loop_state) (out : list (output F))
  : option (loop_state * list (output F)) :=
  if running l then
    match frames with
    | [] => None
    | events :: rest =>
        '(l', o) ← frame fuel events l;
        main_loop fuel rest l' (out ++ o)
    end
  else Some (l, out).

Definition initial_loop_state : loop_state :=
  {| running := true; paused := false; frame_count := 0;
     world := initial_state GRID_SIZE |}.

(** [main()] *)
Definition main (fuel : nat) (frames : list (list event))
  : option (loop_state * list (output F)) :=
  '(l, out) ← main_loop fuel frames initial_loop_state [];
  Some (l, out ++
           [PrintEnded (total_drops (world l))
              (length (avalanche_sizes (world l)));
            PrintPlottingFinal;
            Plot (plot_avalanches_enhanced (world l))]).

(** What the loop keeps true between iterations. *)
Definition loop_invariant (l : loop_state) : Prop :=
  valid_grid GRID_SIZE (grid (world l)) ∧
  stable (grid (world l)) ∧
  bounded_below 0 (grid (world l)) ∧
  0 <= frame_count l ∧
  total_drops (world l) = Z.of_nat SAND_DROPS_PER_FRAME * frame_count l ∧
  Forall (λ v, 1 <= v) (avalanche_sizes (world l)) ∧
  Z.of_nat (length (avalanche_sizes (world l))) <= total_drops (world l).

End Main.

(** Inputs on which the properties are run. *)
Definition unstable_state : sim :=
  {| grid := [[4; 3]; [3; 9]]; avalanche_sizes := []; total_drops := 0 |}.

Definition loaded_state : sim :=
  {| grid := [[3; 3; 0]; [3; 3; 1]; [0; 2; 3]];
     avalanche_sizes := [2];
     total_drops := 20 |}.

Definition example_frames : list (list event) :=
  [[]; [KEYDOWN K_p]; [KEYDOWN K_SPACE; OTHER_EVENT]; [];
   [KEYDOWN K_SPACE]; [KEYDOWN K_other]; [QUIT]; []].

(** * Properties *)

(** ** Fixed-width arithmetic *)

Module Int64Facts.
Import Int64.

Lemma wrap_id z : in_range z → wrap z = z.
Proof.
  unfold in_range, min_int, max_int, wrap. intros Hz.
  rewrite Z.mod_small by lia. lia.
Qed.

Lemma wrap_in_range z : in_range (wrap z).
Proof.
  unfold in_range, min_int, max_int, wrap.
  pose proof (Z.mod_pos_bound (z + 2 ^ 63) (2 ^ 64)). lia.
Qed.

Lemma wrap_add_l a b : wrap (wrap a + b) = wrap (a + b).
Proof.
  unfold wrap. f_equal.
  replace ((a + 2 ^ 63) mod 2 ^ 64 - 2 ^ 63 + b + 2 ^ 63)
    with ((a + 2 ^ 63) mod 2 ^ 64 + b) by lia.
  replace (a + b + 2 ^ 63) with ((a + 2 ^ 63) + b) by lia.
  rewrite Zplus_mod_idemp_l. done.
Qed.

Lemma wrap_add_r a b : wrap (a + wrap b) = wrap (a + b).
Proof. rewrite (Z.add_comm a), wrap_add_l. f_equal. lia. Qed.

Lemma add_in_range a b : in_range (add a b).
Proof. apply wrap_in_range. Qed.

Lemma sub_in_range a b : in_range (sub a b).
Proof. apply wrap_in_range. Qed.

Lemma in_range_0 : in_range 0.
Proof. unfold in_range, min_int, max_int. lia. Qed.

End Int64Facts.

(** ** Arrays, cell by cell *)

Section ArrayFacts.

Variable n : nat.

Lemma shape_ok_row (a : array2) y :
  shape_ok n a → (y < n)%nat → length (a !!! y) = n.
Proof.
  intros [Hlen Hrows] Hy.
  apply (Forall_lookup_total_1 _ _ y) in Hrows; [done | lia].
Qed.

Lemma shape_ok_upd (a : array2) y x f :
  shape_ok n a → shape_ok n (upd a y x f).
Proof.
  intros [Hlen Hrows]. split.
  - unfold upd. by rewrite length_alter.
  - apply Forall_alter; [done|]. intros row _ Hrow. by rewrite length_alter.
Qed.

Lemma cell_upd (a : array2) y x f y' x' :
  shape_ok n a → (y < n)%nat → (x < n)%nat →
  cell (upd a y x f) y' x' =
    if decide (y' = y ∧ x' = x) then f (cell a y x) else cell a y' x'.
Proof.
  intros Hs Hy Hx. unfold cell, upd.
  rewrite list_lookup_total_alter.
  destruct Hs as [Hlen Hrows].
  case_decide as Hd1.
  - destruct Hd1 as [<- _].
    rewrite list_lookup_total_alter.
    assert (length (a !!! y) = n) as Hr by (by apply shape_ok_row).
    repeat case_decide; try done; exfalso; intuition lia.
  - case_decide; [exfalso; intuition lia | done].
Qed.

Lemma array2_ext (a b : array2) :
  shape_ok n a → shape_ok n b →
  (∀ y x, (y < n)%nat → (x < n)%nat → cell a y x = cell b y x) → a = b.
Proof.
  intros Ha Hb Hcell.
  apply (list_eq_same_length _ _ n); [apply Hb | apply Ha |].
  intros y ra rb Hy Hra Hrb.
  pose proof (shape_ok_row a y Ha Hy) as Hla.
  pose proof (shape_ok_row b y Hb Hy) as Hlb.
  apply list_lookup_total_correct in Hra, Hrb. subst ra rb.
  apply (list_eq_same_length _ _ n); [done | done |].
  intros x va vb Hx Hva Hvb.
  apply list_lookup_total_correct in Hva, Hvb. subst va vb.
  by apply Hcell.
Qed.

Lemma shape_ok_zeros_like (a : array2) :
  shape_ok n a → shape_ok n (zeros_like a).
Proof.
  intros [Hlen Hrows]. split.
  - unfold zeros_like. by rewrite length_fmap.
  - unfold zeros_like. apply Forall_fmap.
    eapply List.Forall_impl; [|exact Hrows]. intros row Hrow. simpl.
    by rewrite length_fmap.
Qed.

Lemma cell_zeros_like (a : array2) y x :
  shape_ok n a → (y < n)%nat → (x < n)%nat → cell (zeros_like a) y x = 0.
Proof.
  intros Hs Hy Hx. unfold cell, zeros_like.
  pose proof (shape_ok_row a y Hs Hy) as Hr. destruct Hs as [Hlen _].
  erewrite (list_lookup_total_correct (_ <$> a) y); last first.
  { rewrite list_lookup_fmap, (list_lookup_lookup_total_lt a y) by lia. done. }
  apply list_lookup_total_correct.
  rewrite list_lookup_fmap, (list_lookup_lookup_total_lt _ x) by lia. done.
Qed.

Lemma shape_ok_add_arrays (a b : array2) :
  shape_ok n a → shape_ok n b → shape_ok n (add_arrays a b).
Proof.
  intros [Hla Hra] [Hlb Hrb]. split.
  - unfold add_arrays. rewrite length_zip_with. lia.
  - apply Forall_lookup. intros y row Hrow.
    unfold add_arrays in Hrow. apply lookup_zip_with_Some in Hrow.
    destruct Hrow as (ra & rb & -> & Hya & Hyb).
    rewrite length_zip_with.
    rewrite Forall_lookup in Hra. rewrite Forall_lookup in Hrb.
    rewrite (Hra _ _ Hya), (Hrb _ _ Hyb). lia.
Qed.

Lemma cell_add_arrays (a b : array2) y x :
  shape_ok n a → shape_ok n b → (y < n)%nat → (x < n)%nat →
  cell (add_arrays a b) y x = Int64.add (cell a y x) (cell b y x).
Proof.
  intros Ha Hb Hy Hx. unfold cell, add_arrays.
  pose proof (shape_ok_row a y Ha Hy) as Hra.
  pose proof (shape_ok_row b y Hb Hy) as Hrb.
  destruct Ha as [Hla _], Hb as [Hlb _].
  erewrite (list_lookup_total_correct (zip_with _ a b) y); last first.
  { rewrite lookup_zip_with.
    rewrite (list_lookup_lookup_total_lt a y) by lia.
    rewrite (list_lookup_lookup_total_lt b y) by lia. done. }
  apply list_lookup_total_correct.
  rewrite lookup_zip_with.
  rewrite (list_lookup_lookup_total_lt (a !!! y) x) by lia.
  rewrite (list_lookup_lookup_total_lt (b !!! y) x) by lia. done.
Qed.

Lemma cells_ok_cell (a : array2) y x :
  shape_ok n a → cells_ok a → (y < n)%nat → (x < n)%nat →
  Int64.in_range (cell a y x).
Proof.
  intros Hs Hc Hy Hx. unfold cell.
  pose proof (shape_ok_row a y Hs Hy) as Hr. destruct Hs as [Hlen _].
  apply (Forall_lookup_total_1 _ _ y) in Hc; [|lia].
  apply (Forall_lookup_total_1 _ _ x) in Hc; [done|lia].
Qed.

Lemma Forall_rows_cell (P : Z → Prop) (a : array2) :
  shape_ok n a →
  (Forall (Forall P) a ↔
   ∀ y x, (y < n)%nat → (x < n)%nat → P (cell a y x)).
Proof.
  intros Hs. split.
  - intros Hc y x Hy Hx. unfold cell.
    pose proof (shape_ok_row a y Hs Hy) as Hr. destruct Hs as [Hlen _].
    apply (Forall_lookup_total_1 _ _ y) in Hc; [|lia].
    apply (Forall_lookup_total_1 _ _ x) in Hc; [done|lia].
  - intros Hc. apply Forall_lookup. intros y row Hrow.
    apply Forall_lookup. intros x v Hv.
    pose proof (lookup_lt_Some _ _ _ Hrow) as Hy.
    pose proof (lookup_lt_Some _ _ _ Hv) as Hx.
    apply list_lookup_total_correct in Hrow. subst row.
    apply list_lookup_total_correct in Hv. subst v.
    destruct Hs as [Hlen Hrows].
    apply Hc; [lia|].
    apply (Forall_lookup_total_1 _ _ y) in Hrows; [|lia]. simpl in Hrows. lia.
Qed.

End ArrayFacts.

(** ** Finite sums *)

Section Sums.

Lemma sumn_ext n f g :
  (∀ i, (i < n)%nat → f i = g i) → sumn n f = sumn n g.
Proof.
  induction n as [|k IH]; intros H; simpl; [done|].
  rewrite IH by (intros; apply H; lia). rewrite H by lia. done.
Qed.

Lemma sumn_add n f g : sumn n (λ i, f i + g i) = sumn n f + sumn n g.
Proof. induction n as [|k IH]; simpl; lia. Qed.

Lemma sumn_sub n f g : sumn n (λ i, f i - g i) = sumn n f - sumn n g.
Proof. induction n as [|k IH]; simpl; lia. Qed.

Lemma sumn_scale n c f : sumn n (λ i, c * f i) = c * sumn n f.
Proof. induction n as [|k IH]; simpl; lia. Qed.

Lemma sumn_zero n : sumn n (λ _, 0) = 0.
Proof. induction n as [|k IH]; simpl; lia. Qed.

Lemma sumn_le n f g :
  (∀ i, (i < n)%nat → f i <= g i) → sumn n f <= sumn n g.
Proof.
  induction n as [|k IH]; intros H; simpl; [lia|].
  specialize (IH (λ i Hi, H i (Nat.lt_lt_succ_r _ _ Hi))).
  specialize (H k (Nat.lt_succ_diag_r k)). lia.
Qed.

Lemma sumn_point n t f :
  sumn n (λ i, f i * ind (bool_decide (i = t))) =
    if (t <? n)%nat then f t else 0.
Proof.
  induction n as [|k IH]; simpl; [done|].
  rewrite IH. unfold ind.
  destruct (Nat.ltb_spec t k), (Nat.ltb_spec t (S k));
    case_bool_decide; try lia; subst; lia.
Qed.

Lemma gsum_ext n F G :
  (∀ y x, (y < n)%nat → (x < n)%nat → F y x = G y x) →
  gsum n F = gsum n G.
Proof.
  intros H. unfold gsum. apply sumn_ext. intros y Hy.
  apply sumn_ext. intros x Hx. by apply H.
Qed.

Lemma gsum_add n F G :
  gsum n (λ y x, F y x + G y x) = gsum n F + gsum n G.
Proof. unfold gsum. rewrite <- sumn_add. apply sumn_ext. intros. apply sumn_add. Qed.

Lemma gsum_sub n F G :
  gsum n (λ y x, F y x - G y x) = gsum n F - gsum n G.
Proof. unfold gsum. rewrite <- sumn_sub. apply sumn_ext. intros. apply sumn_sub. Qed.

Lemma gsum_scale n c F : gsum n (λ y x, c * F y x) = c * gsum n F.
Proof. unfold gsum. rewrite <- sumn_scale. apply sumn_ext. intros. apply sumn_scale. Qed.

Lemma gsum_zero n : gsum n (λ _ _, 0) = 0.
Proof.
  unfold gsum. transitivity (sumn n (λ _, 0)); [|apply sumn_zero].
  apply sumn_ext. intros. apply sumn_zero.
Qed.

Lemma gsum_le n F G :
  (∀ y x, (y < n)%nat → (x < n)%nat → F y x <= G y x) →
  gsum n F <= gsum n G.
Proof.
  intros H. unfold gsum. apply sumn_le. intros y Hy.
  apply sumn_le. intros x Hx. by apply H.
Qed.

(** A sum against the indicator of one cell picks that cell. *)
Lemma gsum_point n (t : nat * nat) F :
  gsum n (λ y x, F y x * ind (bool_decide ((y, x) = t))) =
    if (t.1 <? n)%nat && (t.2 <? n)%nat then F t.1 t.2 else 0.
Proof.
  destruct t as [ty tx]. simpl. unfold gsum.
  rewrite (sumn_ext n _
    (λ y, (if (tx <? n)%nat then F y tx else 0) * ind (bool_decide (y = ty)))).
  - rewrite sumn_point. by destruct (ty <? n)%nat, (tx <? n)%nat.
  - intros y Hy.
    destruct (decide (y = ty)) as [->|Hne].
    + rewrite (bool_decide_eq_true_2 (ty = ty)) by done.
      rewrite <- (sumn_point n tx (F ty)). unfold ind at 3.
      rewrite Z.mul_1_r. apply sumn_ext. intros x Hx.
      do 2 f_equal. apply bool_decide_ext. naive_solver.
    + rewrite (bool_decide_eq_false_2 (y = ty)) by done.
      unfold ind at 2. rewrite Z.mul_0_r.
      rewrite <- (sumn_zero n) at 1. apply sumn_ext. intros x Hx.
      rewrite bool_decide_eq_false_2 by naive_solver. unfold ind. lia.
Qed.

Lemma sumZ_cons v l : sumZ (v :: l) = v + sumZ l.
Proof. done. Qed.

Lemma sumZ_app l1 l2 : sumZ (l1 ++ l2) = sumZ l1 + sumZ l2.
Proof.
  induction l1 as [|v l1 IH]; [done|].
  change ((v :: l1) ++ l2) with (v :: (l1 ++ l2)). rewrite !sumZ_cons. lia.
Qed.

Lemma sumZ_perm l1 l2 : l1 ≡ₚ l2 → sumZ l1 = sumZ l2.
Proof. induction 1; rewrite ?sumZ_cons; lia. Qed.

Lemma sumZ_sumn (l : list Z) : sumZ l = sumn (length l) (λ i, l !!! i).
Proof.
  induction l as [|v l IH] using rev_ind; [done|].
  rewrite length_app, sumZ_app. simpl. rewrite Nat.add_1_r. simpl.
  rewrite list_lookup_total_middle by done.
  rewrite (sumn_ext _ _ (λ i, l !!! i)).
  - rewrite <- IH. unfold sumZ. simpl. lia.
  - intros i Hi. by rewrite lookup_total_app_l.
Qed.

Lemma mass_gsum n (g : array2) : shape_ok n g → mass g = gsum n (cell g).
Proof.
  intros Hs. unfold mass, gsum. rewrite sumZ_sumn, length_fmap.
  destruct Hs as [Hlen Hrows]. rewrite Hlen.
  apply sumn_ext. intros y Hy.
  erewrite list_lookup_total_correct; last first.
  { rewrite list_lookup_fmap, (list_lookup_lookup_total_lt g y) by lia. done. }
  rewrite sumZ_sumn.
  apply (Forall_lookup_total_1 _ _ y) in Hrows; [|lia]. simpl in Hrows.
  by rewrite Hrows.
Qed.

End Sums.

(** ** One pass, cell by cell *)

Section PassFacts.

Variable n : nat.

(** An in-place addition of [c] at one cell, up to wrap-around. *)
Lemma wrap_cell_upd (a : array2) ty tx c y x :
  shape_ok n a → (ty < n)%nat → (tx < n)%nat →
  Int64.wrap (cell (upd a ty tx (λ v, Int64.wrap (v + c))) y x) =
  Int64.wrap (cell a y x + c * ind (bool_decide ((y, x) = (ty, tx)))).
Proof.
  intros Hs Hty Htx. rewrite (cell_upd n) by done.
  case_decide as Hd.
  - destruct Hd as [-> ->]. rewrite bool_decide_eq_true_2 by done.
    rewrite Int64Facts.wrap_id by apply Int64Facts.wrap_in_range.
    unfold ind. f_equal. lia.
  - rewrite bool_decide_eq_false_2 by naive_solver.
    unfold ind. f_equal. lia.
Qed.

Lemma wrap_cell_upd_if (b : bool) (a : array2) ty tx y x :
  shape_ok n a → (b = true → (ty < n)%nat ∧ (tx < n)%nat) →
  Int64.wrap
    (cell (if b then upd a ty tx (λ v, Int64.add v 1) else a) y x) =
  Int64.wrap (cell a y x + ind (b && bool_decide ((y, x) = (ty, tx)))).
Proof.
  intros Hs Hb. destruct b; simpl.
  - destruct (Hb eq_refl) as [Hty Htx]. unfold Int64.add.
    rewrite wrap_cell_upd by done. f_equal. lia.
  - f_equal. lia.
Qed.

Lemma shape_ok_upd_if (b : bool) (a : array2) ty tx f :
  shape_ok n a → shape_ok n (if b then upd a ty tx f else a).
Proof. intros Hs. destruct b; [by apply shape_ok_upd | done]. Qed.

(** Effect of the loop body for one index. *)
Lemma topple_cell_spec (g a : array2) (src : nat * nat) :
  shape_ok n g → shape_ok n a → in_grid n src →
  let st := topple_cell n (g, a) src in
  shape_ok n st.1 ∧ shape_ok n st.2 ∧
  ∀ y x,
    Int64.wrap (cell st.1 y x) =
      Int64.wrap (cell g y x - 4 * ind (bool_decide (src = (y, x)))) ∧
    Int64.wrap (cell st.2 y x) =
      Int64.wrap (cell a y x + delivers n src (y, x)).
Proof.
  intros Hg Ha [Hy Hx]. destruct src as [ys xs]. simpl in Hy, Hx.
  unfold topple_cell. cbv zeta. simpl.
  split; [by apply shape_ok_upd|].
  split; [by repeat apply shape_ok_upd_if|].
  intros y x. split.
  - unfold Int64.sub.
    replace (λ v, Int64.wrap (v - 4)) with (λ v, Int64.wrap (v + -4)).
    2:{ f_equal. }
    rewrite wrap_cell_upd by done. f_equal.
    rewrite (bool_decide_ext ((y, x) = (ys, xs)) ((ys, xs) = (y, x)))
      by naive_solver.
    lia.
  - rewrite wrap_cell_upd_if.
    2:{ by repeat apply shape_ok_upd_if. }
    2:{ intros Hb%Nat.ltb_lt. lia. }
    rewrite <- Int64Facts.wrap_add_l, wrap_cell_upd_if.
    2:{ by repeat apply shape_ok_upd_if. }
    2:{ intros Hb%Nat.ltb_lt. lia. }
    rewrite Int64Facts.wrap_add_l.
    rewrite <- Z.add_assoc, <- Int64Facts.wrap_add_l, wrap_cell_upd_if.
    2:{ by repeat apply shape_ok_upd_if. }
    2:{ intros Hb%Nat.ltb_lt. lia. }
    rewrite Int64Facts.wrap_add_l.
    rewrite <- Z.add_assoc, <- Int64Facts.wrap_add_l, wrap_cell_upd_if.
    2:{ done. }
    2:{ intros Hb%Nat.ltb_lt. lia. }
    rewrite Int64Facts.wrap_add_l. f_equal. lia.
Qed.

(** Effect of the whole [for] loop over an index list. *)
Lemma foldl_topple_cell_spec (l : list (nat * nat)) (g a : array2) :
  shape_ok n g → shape_ok n a → Forall (in_grid n) l →
  let st := foldl (topple_cell n) (g, a) l in
  shape_ok n st.1 ∧ shape_ok n st.2 ∧
  ∀ y x,
    Int64.wrap (cell st.1 y x) = Int64.wrap (cell g y x - 4 * occ (y, x) l) ∧
    Int64.wrap (cell st.2 y x) = Int64.wrap (cell a y x + received n l (y, x)).
Proof.
  revert g a. induction l as [|src l IH]; intros g a Hg Ha Hl.
  - simpl. split; [done|]. split; [done|]. intros y x.
    unfold occ, received. simpl. split; f_equal; lia.
  - apply Forall_cons_1 in Hl as [Hsrc Hl].
    pose proof (topple_cell_spec g a src Hg Ha Hsrc) as (Hg1 & Ha1 & Hc1).
    change (foldl (topple_cell n) (g, a) (src :: l))
      with (foldl (topple_cell n) (topple_cell n (g, a) src) l).
    destruct (topple_cell n (g, a) src) as [g1 a1]. cbn [fst snd] in *.
    pose proof (IH g1 a1 Hg1 Ha1 Hl) as (Hg2 & Ha2 & Hc2).
    cbv zeta. split; [done|]. split; [done|]. intros y x.
    destruct (Hc1 y x) as [Hc1g Hc1a]. destruct (Hc2 y x) as [Hc2g Hc2a].
    rewrite Hc2g, Hc2a. unfold occ, received. rewrite !fmap_cons, !sumZ_cons.
    fold (occ (y, x) l). fold (received n l (y, x)). split.
    + replace (cell g1 y x - 4 * occ (y, x) l)
        with (cell g1 y x + (- 4 * occ (y, x) l)) by lia.
      rewrite <- Int64Facts.wrap_add_l, Hc1g, Int64Facts.wrap_add_l.
      f_equal. lia.
    + rewrite <- Int64Facts.wrap_add_l, Hc1a, Int64Facts.wrap_add_l.
      f_equal. lia.
Qed.

(** The grid after a pass over [l], up to wrap-around. *)
Lemma topple_pass_on_spec (l : list (nat * nat)) (g : array2) :
  shape_ok n g → Forall (in_grid n) l →
  shape_ok n (topple_pass_on n l g) ∧
  ∀ y x, (y < n)%nat → (x < n)%nat →
    cell (topple_pass_on n l g) y x =
      Int64.wrap (cell g y x - 4 * occ (y, x) l + received n l (y, x)).
Proof.
  intros Hg Hl. unfold topple_pass_on.
  pose proof (foldl_topple_cell_spec l g (zeros_like g) Hg
                (shape_ok_zeros_like n g Hg) Hl) as (Hg1 & Ha1 & Hc).
  destruct (foldl (topple_cell n) (g, zeros_like g) l) as [g1 a1].
  simpl in *. split; [by apply shape_ok_add_arrays|].
  intros y x Hy Hx. rewrite (cell_add_arrays n) by done.
  destruct (Hc y x) as [Hcg Hca]. unfold Int64.add.
  rewrite <- Int64Facts.wrap_add_r, Hca, Int64Facts.wrap_add_r.
  rewrite (cell_zeros_like n) by done.
  rewrite <- Int64Facts.wrap_add_l, Hcg, Int64Facts.wrap_add_l.
  f_equal; lia.
Qed.

End PassFacts.

(** ** The unstable set *)

Section WhereFacts.

Lemma where_ge4_elem (g : array2) y x :
  (y, x) ∈ where_ge4 g ↔
  (y < length g)%nat ∧ (x < length (g !!! y))%nat ∧ 4 <= cell g y x.
Proof.
  unfold where_ge4. rewrite list_elem_of_bind. split.
  - intros (y' & Hin & Hy'). apply elem_of_seq in Hy'.
    apply list_elem_of_bind in Hin as (x' & Hin & Hx').
    apply elem_of_seq in Hx'.
    destruct (Z.leb_spec 4 (cell g y' x')); [|by apply elem_of_nil in Hin].
    apply list_elem_of_singleton in Hin. injection Hin as -> ->.
    split; [lia|]. split; [lia|done].
  - intros (Hy & Hx & Hc). exists y. split; [|apply elem_of_seq; lia].
    apply list_elem_of_bind. exists x. split; [|apply elem_of_seq; lia].
    destruct (Z.leb_spec 4 (cell g y x)); [|lia].
    by apply list_elem_of_singleton.
Qed.

Lemma where_ge4_NoDup (g : array2) : NoDup (where_ge4 g).
Proof.
  unfold where_ge4. apply NoDup_bind; [| |apply NoDup_seq].
  - intros y1 y2 [y x] _ _ H1 H2.
    apply list_elem_of_bind in H1 as (x1 & H1 & _).
    apply list_elem_of_bind in H2 as (x2 & H2 & _).
    destruct (4 <=? cell g y1 x1); [|by apply elem_of_nil in H1].
    destruct (4 <=? cell g y2 x2); [|by apply elem_of_nil in H2].
    apply list_elem_of_singleton in H1, H2. congruence.
  - intros y _. apply NoDup_bind; [| |apply NoDup_seq].
    + intros x1 x2 [y' x] _ _ H1 H2.
      destruct (4 <=? cell g y x1); [|by apply elem_of_nil in H1].
      destruct (4 <=? cell g y x2); [|by apply elem_of_nil in H2].
      apply list_elem_of_singleton in H1, H2. congruence.
    + intros x _. destruct (4 <=? cell g y x);
        [apply NoDup_singleton | apply NoDup_nil_2].
Qed.

Lemma where_ge4_in_grid n (g : array2) :
  shape_ok n g → Forall (in_grid n) (where_ge4 g).
Proof.
  intros Hs. apply Forall_forall. intros [y x] Hin.
  apply where_ge4_elem in Hin as (Hy & Hx & _).
  pose proof Hs as [Hlen _]. rewrite Hlen in Hy.
  rewrite (shape_ok_row n g y Hs Hy) in Hx. by split.
Qed.

Lemma any_ge4_true (g : array2) :
  any_ge4 g = true ↔
  ∃ y x, (y < length g)%nat ∧ (x < length (g !!! y))%nat ∧ 4 <= cell g y x.
Proof.
  unfold any_ge4. rewrite existsb_exists. split.
  - intros (row & Hrow & Hex). apply existsb_exists in Hex as (v & Hv & Hle).
    apply list_elem_of_In, list_elem_of_lookup in Hrow as [y Hy].
    apply list_elem_of_In, list_elem_of_lookup in Hv as [x Hx].
    exists y, x. split; [by eapply lookup_lt_Some|].
    unfold cell. rewrite (list_lookup_total_correct _ _ _ Hy).
    split; [by eapply lookup_lt_Some|].
    rewrite (list_lookup_total_correct _ _ _ Hx). lia.
  - intros (y & x & Hy & Hx & Hc). exists (g !!! y). split.
    + apply list_elem_of_In, list_elem_of_lookup. exists y.
      by apply list_lookup_lookup_total_lt.
    + apply existsb_exists. exists (cell g y x). split; [|lia].
      apply list_elem_of_In, list_elem_of_lookup. exists x.
      by apply list_lookup_lookup_total_lt.
Qed.

Lemma any_ge4_where (g : array2) : any_ge4 g = true → where_ge4 g ≠ [].
Proof.
  intros (y & x & H)%any_ge4_true. apply where_ge4_elem in H.
  intros E. rewrite E in H. by apply elem_of_nil in H.
Qed.

Lemma any_ge4_false_stable (g : array2) : any_ge4 g = false ↔ stable g.
Proof.
  unfold any_ge4, stable. split.
  - intros H. apply Forall_forall. intros row Hrow.
    apply Forall_forall. intros v Hv.
    destruct (Z.leb_spec 4 v) as [Hle|]; [|done]. exfalso.
    assert (existsb (existsb (Z.leb 4)) g = true) as Ht; [|congruence].
    apply existsb_exists. exists row. split; [by apply list_elem_of_In|].
    apply existsb_exists. exists v. split; [by apply list_elem_of_In|lia].
  - intros H. apply not_true_is_false. intros Ht.
    apply existsb_exists in Ht as (row & Hrow & Hex).
    apply existsb_exists in Hex as (v & Hv & Hle).
    apply list_elem_of_In in Hrow, Hv.
    rewrite Forall_forall in H. specialize (H row Hrow).
    rewrite Forall_forall in H. specialize (H v Hv). lia.
Qed.

Lemma occ_nonneg i l : 0 <= occ i l.
Proof.
  unfold occ. induction l as [|j l IH]; [done|].
  rewrite fmap_cons, sumZ_cons. unfold ind at 1. case_bool_decide; lia.
Qed.

Lemma occ_not_elem i l : i ∉ l → occ i l = 0.
Proof.
  unfold occ. induction l as [|j l IH]; [done|].
  intros Hni. apply not_elem_of_cons in Hni as [Hne Hni].
  rewrite fmap_cons, sumZ_cons, IH by done.
  rewrite bool_decide_eq_false_2 by done. done.
Qed.

Lemma occ_NoDup i l : NoDup l → occ i l = ind (bool_decide (i ∈ l)).
Proof.
  induction 1 as [|j l Hj Hnd IH].
  - rewrite bool_decide_eq_false_2 by apply not_elem_of_nil. done.
  - unfold occ in *. rewrite fmap_cons, sumZ_cons, IH.
    destruct (decide (j = i)) as [->|Hne].
    + rewrite (bool_decide_eq_true_2 (i = i)) by done.
      rewrite (bool_decide_eq_false_2 (i ∈ l)) by done.
      rewrite bool_decide_eq_true_2 by apply list_elem_of_here. done.
    + rewrite (bool_decide_eq_false_2 (j = i)) by done.
      unfold ind at 1. rewrite Z.add_0_l. f_equal.
      apply bool_decide_ext. rewrite elem_of_cons. intuition congruence.
Qed.

Lemma occ_where_ge4 n (g : array2) y x :
  shape_ok n g → occ (y, x) (where_ge4 g) = unstable_at n g y x.
Proof.
  intros Hs. rewrite occ_NoDup by apply where_ge4_NoDup.
  unfold unstable_at. f_equal.
  pose proof Hs as [Hlen _].
  case_bool_decide as Hin.
  - apply where_ge4_elem in Hin as (Hy & Hx & Hc).
    rewrite Hlen in Hy. rewrite (shape_ok_row n g y Hs Hy) in Hx.
    symmetry. rewrite !andb_true_iff. split; [split|].
    + by apply Nat.ltb_lt.
    + by apply Nat.ltb_lt.
    + by apply Z.leb_le.
  - symmetry. apply not_true_is_false. intros Ht. apply Hin.
    rewrite !andb_true_iff in Ht. destruct Ht as [[Hy%Nat.ltb_lt Hx%Nat.ltb_lt] Hc%Z.leb_le].
    apply where_ge4_elem. rewrite Hlen, (shape_ok_row n g y Hs Hy). done.
Qed.

Lemma ind_ext b1 b2 : (b1 = true ↔ b2 = true) → ind b1 = ind b2.
Proof. destruct b1, b2; intros [H1 H2]; auto; [by rewrite H1 | by rewrite H2]. Qed.

Lemma ind_and b1 b2 : ind (b1 && b2) = ind b1 * ind b2.
Proof. by destruct b1, b2. Qed.

(** What a cell receives, counted from the receiving side. *)
Lemma delivers_gather n (src : nat * nat) y x :
  in_grid n src → (y < n)%nat → (x < n)%nat →
  delivers n src (y, x) =
    ind (bool_decide (src = (y, x + 1)%nat))
    + ind (0 <? x)%nat * ind (bool_decide (src = (y, x - 1)%nat))
    + ind (bool_decide (src = (y + 1, x)%nat))
    + ind (0 <? y)%nat * ind (bool_decide (src = (y - 1, x)%nat)).
Proof.
  destruct src as [ys xs]. intros [Hys Hxs] Hy Hx. simpl in Hys, Hxs.
  unfold delivers. rewrite <- !ind_and.
  f_equal; [f_equal; [f_equal|]|];
    apply ind_ext;
    rewrite ?andb_true_iff, ?bool_decide_eq_true, ?Nat.ltb_lt;
    (split; intros H; destruct_and?; simplify_eq;
     repeat split; try lia; try (f_equal; lia)).
Qed.

Lemma received_gather n l y x :
  Forall (in_grid n) l → (y < n)%nat → (x < n)%nat →
  received n l (y, x) =
    occ (y, x + 1)%nat l + ind (0 <? x)%nat * occ (y, x - 1)%nat l
    + occ (y + 1, x)%nat l + ind (0 <? y)%nat * occ (y - 1, x)%nat l.
Proof.
  intros Hl Hy Hx. induction Hl as [|src l Hsrc Hl IH].
  - unfold received, occ. simpl. lia.
  - unfold received, occ in *. rewrite !fmap_cons, !sumZ_cons, IH.
    rewrite (delivers_gather n src y x) by done. lia.
Qed.

End WhereFacts.

(** ** One pass on a valid grid: no wrap-around *)

Section PassValid.

Variable n : nat.

Lemma unstable_at_cases (g : array2) y x :
  (unstable_at n g y x = 1 ∧ (y < n)%nat ∧ (x < n)%nat ∧ 4 <= cell g y x) ∨
  (unstable_at n g y x = 0 ∧ ((y < n)%nat → (x < n)%nat → cell g y x < 4)).
Proof.
  unfold unstable_at.
  destruct (Nat.ltb_spec y n), (Nat.ltb_spec x n),
    (Z.leb_spec 4 (cell g y x)); simpl; auto with lia.
Qed.

Lemma valid_grid_topple_pass (g : array2) :
  valid_grid n g → valid_grid n (topple_pass n g).
Proof.
  intros [Hs Hc].
  pose proof (topple_pass_on_spec n _ g Hs (where_ge4_in_grid n g Hs))
    as [Hs' Hcell].
  split; [done|]. apply (Forall_rows_cell n); [done|]. intros y x Hy Hx.
  unfold topple_pass. rewrite Hcell by done. apply Int64Facts.wrap_in_range.
Qed.

(** The pass writes [relaxed] into every cell. *)
Lemma topple_pass_relaxed (g : array2) y x :
  valid_grid n g → (y < n)%nat → (x < n)%nat →
  cell (topple_pass n g) y x = relaxed n g y x.
Proof.
  intros [Hs Hc] Hy Hx.
  pose proof (topple_pass_on_spec n _ g Hs (where_ge4_in_grid n g Hs))
    as [_ Hcell].
  unfold topple_pass. rewrite Hcell by done.
  rewrite (received_gather n) by (done || by apply where_ge4_in_grid).
  rewrite !(occ_where_ge4 n) by done.
  pose proof (cells_ok_cell n g y x Hs Hc Hy Hx) as Hr.
  unfold relaxed.
  rewrite Int64Facts.wrap_id; [lia|].
  unfold Int64.in_range, Int64.min_int, Int64.max_int in *.
  destruct (unstable_at_cases g y x) as [(-> & _ & _ & ?)|[-> Hlt]];
    [|specialize (Hlt Hy Hx)];
    destruct (unstable_at_cases g y (x + 1)) as [(-> & _)|[-> _]];
    destruct (unstable_at_cases g y (x - 1)) as [(-> & _)|[-> _]];
    destruct (unstable_at_cases g (y + 1) x) as [(-> & _)|[-> _]];
    destruct (unstable_at_cases g (y - 1) x) as [(-> & _)|[-> _]];
    destruct (0 <? x)%nat, (0 <? y)%nat; unfold ind; lia.
Qed.

(** The same without the gather form: removals and arrivals. *)
Lemma topple_pass_exact (g : array2) y x :
  valid_grid n g → (y < n)%nat → (x < n)%nat →
  cell (topple_pass n g) y x =
    cell g y x - 4 * occ (y, x) (where_ge4 g)
    + received n (where_ge4 g) (y, x).
Proof.
  intros Hv Hy Hx. rewrite topple_pass_relaxed by done.
  destruct Hv as [Hs Hc].
  rewrite (received_gather n) by (done || by apply where_ge4_in_grid).
  rewrite !(occ_where_ge4 n) by done. unfold relaxed. lia.
Qed.

Lemma gsum_occ (w : nat → nat → Z) l :
  Forall (in_grid n) l →
  gsum n (λ y x, w y x * occ (y, x) l) = sumZ ((λ i, w i.1 i.2) <$> l).
Proof.
  induction 1 as [|i l [Hi1 Hi2] Hl IH].
  - unfold occ. simpl. rewrite (gsum_ext _ _ (λ _ _, 0)) by (intros; lia).
    apply gsum_zero.
  - rewrite fmap_cons, sumZ_cons, <- IH.
    rewrite (gsum_ext _ _
      (λ y x, w y x * ind (bool_decide ((y, x) = i)) + w y x * occ (y, x) l)).
    + rewrite gsum_add, gsum_point.
      apply Nat.ltb_lt in Hi1, Hi2. by rewrite Hi1, Hi2.
    + intros y x _ _. unfold occ. rewrite fmap_cons, sumZ_cons.
      rewrite (bool_decide_ext (i = (y, x)) ((y, x) = i)) by done. lia.
Qed.

Lemma gsum_delivers (w : nat → nat → Z) (src : nat * nat) :
  in_grid n src →
  gsum n (λ y x, w y x * delivers n src (y, x)) =
    drift n w src + 4 * w src.1 src.2.
Proof.
  destruct src as [ys xs]. intros [Hys Hxs]. simpl in Hys, Hxs.
  unfold delivers, drift. cbn [fst snd].
  rewrite (gsum_ext _ _
    (λ y x,
       ind (0 <? xs)%nat * (w y x * ind (bool_decide ((y, x) = (ys, xs - 1)%nat)))
       + ind (xs <? n - 1)%nat * (w y x * ind (bool_decide ((y, x) = (ys, xs + 1)%nat)))
       + ind (0 <? ys)%nat * (w y x * ind (bool_decide ((y, x) = (ys - 1, xs)%nat)))
       + ind (ys <? n - 1)%nat * (w y x * ind (bool_decide ((y, x) = (ys + 1, xs)%nat))))).
  2:{ intros y x _ _. rewrite !ind_and. lia. }
  rewrite !gsum_add, !gsum_scale, !gsum_point. cbn [fst snd].
  destruct (Nat.ltb_spec 0 xs), (Nat.ltb_spec xs (n - 1)),
    (Nat.ltb_spec 0 ys), (Nat.ltb_spec ys (n - 1));
    unfold ind;
    repeat match goal with
           | |- context [Nat.ltb ?a ?b] => destruct (Nat.ltb_spec a b)
           end; simpl; lia.
Qed.

Lemma gsum_received (w : nat → nat → Z) l :
  Forall (in_grid n) l →
  gsum n (λ y x, w y x * received n l (y, x)) =
    sumZ ((λ i, drift n w i + 4 * w i.1 i.2) <$> l).
Proof.
  induction 1 as [|i l Hi Hl IH].
  - unfold received. simpl. rewrite (gsum_ext _ _ (λ _ _, 0)) by (intros; lia).
    apply gsum_zero.
  - rewrite fmap_cons, sumZ_cons, <- IH, <- gsum_delivers by done.
    rewrite <- gsum_add. apply gsum_ext. intros y x _ _.
    unfold received. rewrite fmap_cons, sumZ_cons. lia.
Qed.

Lemma sumZ_fmap_add {A} (f h : A → Z) (l : list A) :
  sumZ ((λ i, f i + h i) <$> l) = sumZ (f <$> l) + sumZ (h <$> l).
Proof. induction l as [|i l IH]; [done|]. rewrite !fmap_cons, !sumZ_cons. lia. Qed.

Lemma sumZ_fmap_scale {A} c (f : A → Z) (l : list A) :
  sumZ ((λ i, c * f i) <$> l) = c * sumZ (f <$> l).
Proof. induction l as [|i l IH]; [simpl; lia|]. rewrite !fmap_cons, !sumZ_cons. lia. Qed.

(** Weighted totals before and after a pass. *)
Lemma gsum_topple_pass (w : nat → nat → Z) (g : array2) :
  valid_grid n g →
  gsum n (λ y x, w y x * cell (topple_pass n g) y x) =
    gsum n (λ y x, w y x * cell g y x) + sumZ (drift n w <$> where_ge4 g).
Proof.
  intros Hv. pose proof Hv as [Hs Hc].
  pose proof (where_ge4_in_grid n g Hs) as Hin.
  rewrite (gsum_ext _ _
    (λ y x, w y x * cell g y x
            - 4 * (w y x * occ (y, x) (where_ge4 g))
            + w y x * received n (where_ge4 g) (y, x))).
  2:{ intros y x Hy Hx. rewrite topple_pass_exact by done. lia. }
  rewrite gsum_add, gsum_sub, gsum_scale, gsum_occ, gsum_received by done.
  rewrite sumZ_fmap_add, sumZ_fmap_scale. lia.
Qed.

End PassValid.

(** ** Mass and potential across a pass *)

Section PassBalance.

Variable n : nat.

Lemma drift_unit i : drift n (λ _ _, 1) i = - lost_at n i.
Proof. destruct i as [y x]. unfold drift, lost_at, delivered_at. lia. Qed.

Lemma mass_topple_pass (g : array2) :
  valid_grid n g → mass (topple_pass n g) = mass g - pass_loss n g.
Proof.
  intros Hv. pose proof (valid_grid_topple_pass n g Hv) as [Hs' _].
  pose proof Hv as [Hs _].
  rewrite !(mass_gsum n) by done.
  pose proof (gsum_topple_pass n (λ _ _, 1) g Hv) as H.
  rewrite (gsum_ext n (cell (topple_pass n g))
             (λ y x, 1 * cell (topple_pass n g) y x)) by (intros; lia).
  rewrite H. rewrite (gsum_ext n (λ y x, 1 * cell g y x) (cell g))
    by (intros; lia).
  unfold pass_loss.
  assert (∀ l, sumZ (drift n (λ _ _, 1) <$> l) = - sumZ (lost_at n <$> l)) as E.
  { induction l as [|i l IH]; [done|].
    rewrite !fmap_cons, !sumZ_cons, IH, drift_unit. lia. }
  rewrite E. lia.
Qed.

Lemma weight_nonneg x : (x < n)%nat → 0 <= weight n x.
Proof. unfold weight. nia. Qed.

Lemma drift_weight i :
  in_grid n i → drift n (λ _ x, weight n x) i <= -2.
Proof.
  destruct i as [y x]. intros [Hy Hx]. simpl in Hy, Hx.
  pose proof (weight_nonneg x Hx) as Hw.
  unfold drift.
  assert (ind (0 <? x)%nat * weight n (x - 1)
          + ind (x <? n - 1)%nat * weight n (x + 1)
          = 2 * weight n x - 2) as E.
  { unfold weight, ind.
    destruct (Nat.ltb_spec 0 x), (Nat.ltb_spec x (n - 1));
      rewrite ?Nat2Z.inj_sub, ?Nat2Z.inj_add by lia; nia. }
  assert (ind (0 <? y)%nat * weight n x <= weight n x) as E1.
  { unfold ind. destruct (0 <? y)%nat; lia. }
  assert (ind (y <? n - 1)%nat * weight n x <= weight n x) as E2.
  { unfold ind. destruct (y <? n - 1)%nat; lia. }
  lia.
Qed.

Lemma energy_split lo (g : array2) :
  energy n lo g =
    gsum n (λ y x, weight n x * cell g y x)
    - lo * gsum n (λ _ x, weight n x).
Proof.
  unfold energy. rewrite <- gsum_scale, <- gsum_sub.
  apply gsum_ext. intros. lia.
Qed.

Lemma energy_nonneg lo (g : array2) :
  shape_ok n g → bounded_below lo g → 0 <= energy n lo g.
Proof.
  intros Hs Hb. unfold energy. rewrite <- (gsum_zero n).
  apply gsum_le. intros y x Hy Hx.
  pose proof (proj1 (Forall_rows_cell n (λ v, lo <= v) g Hs) Hb y x Hy Hx) as Hlo.
  simpl in Hlo. pose proof (weight_nonneg x Hx). nia.
Qed.

Lemma cells_ok_bounded_below (g : array2) :
  cells_ok g → bounded_below Int64.min_int g.
Proof.
  intros Hc. eapply List.Forall_impl; [|exact Hc]. intros row Hrow.
  eapply List.Forall_impl; [|exact Hrow]. by intros v [Hlo _].
Qed.

(** Toppling never takes a cell below zero. *)
Lemma bounded_below_topple_pass lo (g : array2) :
  valid_grid n g → lo <= 0 → bounded_below lo g →
  bounded_below lo (topple_pass n g).
Proof.
  intros Hv Hlo Hb. pose proof (valid_grid_topple_pass n g Hv) as [Hs' _].
  apply (Forall_rows_cell n); [done|]. intros y x Hy Hx.
  rewrite topple_pass_relaxed by done. destruct Hv as [Hs _].
  pose proof (proj1 (Forall_rows_cell n (λ v, lo <= v) g Hs) Hb y x Hy Hx) as Hc.
  simpl in Hc. unfold relaxed.
  destruct (unstable_at_cases n g y x) as [(-> & _ & _ & ?)|[-> _]];
    destruct (unstable_at_cases n g y (x + 1)) as [(-> & _)|[-> _]];
    destruct (unstable_at_cases n g y (x - 1)) as [(-> & _)|[-> _]];
    destruct (unstable_at_cases n g (y + 1) x) as [(-> & _)|[-> _]];
    destruct (unstable_at_cases n g (y - 1) x) as [(-> & _)|[-> _]];
    destruct (0 <? x)%nat, (0 <? y)%nat; unfold ind; lia.
Qed.

(** Every cell that topples in a pass lowers the potential by two
    at least. *)
Lemma energy_topple_pass lo (g : array2) :
  valid_grid n g →
  energy n lo (topple_pass n g) <=
    energy n lo g - 2 * Z.of_nat (length (where_ge4 g)).
Proof.
  intros Hv. rewrite !energy_split, gsum_topple_pass by done.
  destruct Hv as [Hs _]. pose proof (where_ge4_in_grid n g Hs) as Hin.
  assert (sumZ (drift n (λ _ x, weight n x) <$> where_ge4 g)
          <= - 2 * Z.of_nat (length (where_ge4 g))) as E; [|lia].
  induction Hin as [|i l Hi Hl IH]; [simpl; lia|].
  rewrite fmap_cons, sumZ_cons. pose proof (drift_weight i Hi).
  rewrite length_cons, Nat2Z.inj_succ. lia.
Qed.

End PassBalance.

(** ** The stabilization loop *)

Section LoopFacts.

Variable n : nat.

Lemma any_ge4_length (g : array2) :
  any_ge4 g = true →
  (length (where_ge4 g) =? 0)%nat = false ∧ (1 <= length (where_ge4 g))%nat.
Proof.
  intros Hne%any_ge4_where. destruct (where_ge4 g); [done|].
  simpl. split; [done|lia].
Qed.

(** Enough fuel: the loop exits.  Every pass lowers the potential by
    two at least, and the potential is never negative. *)
Lemma topple_loop_fuel lo fuel (g : array2) total :
  valid_grid n g → lo <= 0 → bounded_below lo g →
  energy n lo g < 2 * Z.of_nat fuel →
  is_Some (topple_loop n fuel g total).
Proof.
  revert g total. induction fuel as [|fuel IH]; intros g total Hv Hlo Hb He.
  - pose proof (energy_nonneg n lo g (proj1 Hv) Hb). lia.
  - simpl. destruct (any_ge4 g) eqn:Hany; [|done].
    destruct (any_ge4_length g Hany) as [-> Hlen].
    apply IH; [by apply valid_grid_topple_pass|done| |].
    + by apply bounded_below_topple_pass.
    + pose proof (energy_topple_pass n lo g Hv) as Hd. lia.
Qed.

Lemma topple_loop_total (g : array2) total :
  valid_grid n g → ∃ fuel r, topple_loop n fuel g total = Some r.
Proof.
  intros Hv. pose proof Hv as [Hs Hc].
  pose proof (cells_ok_bounded_below g Hc) as Hb.
  pose proof (energy_nonneg n _ g Hs Hb) as He.
  exists (S (Z.to_nat (energy n Int64.min_int g))).
  apply (topple_loop_fuel Int64.min_int); [done|done|done|lia].
Qed.

(** More fuel does not change a result. *)
Lemma topple_loop_mono fuel fuel' (g : array2) total r :
  topple_loop n fuel g total = Some r → (fuel <= fuel')%nat →
  topple_loop n fuel' g total = Some r.
Proof.
  revert fuel' g total. induction fuel as [|fuel IH];
    intros fuel' g total Hr Hle; [done|].
  destruct fuel' as [|fuel']; [lia|]. simpl in *.
  destruct (any_ge4 g); [|done].
  destruct (length (where_ge4 g) =? 0)%nat; [done|].
  apply IH; [done|lia].
Qed.

Lemma topple_lost_mono fuel fuel' (g : array2) total r :
  topple_loop n fuel g total = Some r → (fuel <= fuel')%nat →
  topple_lost n fuel' g = topple_lost n fuel g.
Proof.
  revert fuel' g total. induction fuel as [|fuel IH];
    intros fuel' g total Hr Hle; [done|].
  destruct fuel' as [|fuel']; [lia|]. simpl in *.
  destruct (any_ge4 g); [|done].
  destruct (length (where_ge4 g) =? 0)%nat; [done|].
  f_equal. eapply IH; [done|lia].
Qed.

(** What holds when the loop has exited. *)
Lemma topple_loop_exit fuel (g : array2) total g' size :
  valid_grid n g → topple_loop n fuel g total = Some (g', size) →
  valid_grid n g' ∧ stable g' ∧ total <= size ∧
  mass g' + topple_lost n fuel g = mass g.
Proof.
  revert g total. induction fuel as [|fuel IH]; intros g total Hv Hr; [done|].
  simpl in *. destruct (any_ge4 g) eqn:Hany.
  - destruct (any_ge4_length g Hany) as [E Hlen]. rewrite E in Hr |- *.
    destruct (IH _ _ (valid_grid_topple_pass n g Hv) Hr) as (Hv' & Hst & Hle & Hm).
    split; [done|]. split; [done|]. split; [lia|].
    rewrite mass_topple_pass in Hm by done. lia.
  - injection Hr as <- <-. split; [done|].
    split; [by apply any_ge4_false_stable|]. split; lia.
Qed.

(** The size returned is zero exactly when no pass ran. *)
Lemma topple_loop_stable fuel (g : array2) total :
  stable g → topple_loop n (S fuel) g total = Some (g, total).
Proof. intros Hst%any_ge4_false_stable. simpl. by rewrite Hst. Qed.

End LoopFacts.

(** ** Dropping a grain *)

Section DropFacts.

Variable n : nat.

Lemma in_bounds_spec x y :
  in_bounds n (x, y) = true ↔ (0 <= x < Z.of_nat n ∧ 0 <= y < Z.of_nat n).
Proof.
  unfold in_bounds. cbn [fst snd].
  rewrite !andb_true_iff, !Z.leb_le, !Z.ltb_lt. lia.
Qed.

Lemma add_sand_out x y s : in_bounds n (x, y) = false → add_sand n x y s = s.
Proof. unfold in_bounds, add_sand. cbn [fst snd]. by intros ->. Qed.

Lemma add_sand_in x y s :
  in_bounds n (x, y) = true →
  add_sand n x y s =
    {| grid := upd (grid s) (Z.to_nat y) (Z.to_nat x) (λ v, Int64.add v 1);
       avalanche_sizes := avalanche_sizes s;
       total_drops := total_drops s + 1 |}.
Proof. unfold in_bounds, add_sand. cbn [fst snd]. by intros ->. Qed.

(** The cells after an accepted drop, when the target is not at the
    largest [int64]. *)
Lemma add_sand_cell x y s y' x' :
  in_bounds n (x, y) = true → shape_ok n (grid s) →
  Int64.in_range (cell (grid s) (Z.to_nat y) (Z.to_nat x)) →
  cell (grid s) (Z.to_nat y) (Z.to_nat x) < Int64.max_int →
  cell (grid (add_sand n x y s)) y' x' =
    cell (grid s) y' x'
    + ind (bool_decide ((y', x') = (Z.to_nat y, Z.to_nat x))).
Proof.
  intros Hin Hs Hr Hmax. rewrite add_sand_in by done. cbn [grid].
  apply in_bounds_spec in Hin as [Hx Hy].
  rewrite (cell_upd n) by (done || lia).
  case_decide as Hd.
  - destruct Hd as [-> ->]. rewrite bool_decide_eq_true_2 by done.
    unfold Int64.add. rewrite Int64Facts.wrap_id; [done|].
    unfold Int64.in_range, Int64.min_int, Int64.max_int in *. lia.
  - rewrite bool_decide_eq_false_2; [unfold ind; lia|].
    intros [= -> ->]. by apply Hd.
Qed.

Lemma stable_cell_lt (g : array2) y x :
  shape_ok n g → stable g → (y < n)%nat → (x < n)%nat → cell g y x < 4.
Proof. intros Hs Hst. by apply (Forall_rows_cell n (λ v, v < 4) g Hs). Qed.

Lemma add_sand_valid x y s :
  valid_grid n (grid s) → valid_grid n (grid (add_sand n x y s)).
Proof.
  intros [Hs Hc]. destruct (in_bounds n (x, y)) eqn:Hin.
  - rewrite add_sand_in by done. cbn [grid].
    split; [by apply shape_ok_upd|].
    apply (Forall_rows_cell n); [by apply shape_ok_upd|]. intros y' x' Hy' Hx'.
    apply in_bounds_spec in Hin as [Hx Hy].
    rewrite (cell_upd n) by (done || lia).
    case_decide; [apply Int64Facts.add_in_range | by apply (cells_ok_cell n)].
  - by rewrite add_sand_out.
Qed.

Lemma add_sand_mass x y s :
  valid_grid n (grid s) → stable (grid s) →
  mass (grid (add_sand n x y s)) = mass (grid s) + ind (in_bounds n (x, y)).
Proof.
  intros Hv Hst. pose proof (add_sand_valid x y s Hv) as [Hs' _].
  destruct Hv as [Hs Hc]. destruct (in_bounds n (x, y)) eqn:Hin.
  - pose proof Hin as [Hx Hy]%in_bounds_spec.
    rewrite !(mass_gsum n) by done.
    rewrite (gsum_ext _ _
      (λ y' x', cell (grid s) y' x'
                + 1 * ind (bool_decide ((y', x') = (Z.to_nat y, Z.to_nat x))))).
    + rewrite gsum_add, (gsum_point n _ (λ _ _, 1)). cbn [fst snd].
      destruct (Nat.ltb_spec (Z.to_nat y) n), (Nat.ltb_spec (Z.to_nat x) n);
        simpl; lia.
    + intros y' x' _ _. rewrite add_sand_cell; [lia|done|done| |].
      * apply (cells_ok_cell n); [done|done|lia|lia].
      * pose proof (stable_cell_lt (grid s) (Z.to_nat y) (Z.to_nat x) Hs Hst).
        unfold Int64.max_int. lia.
  - rewrite add_sand_out by done. unfold ind. lia.
Qed.

Lemma add_sand_total_drops x y s :
  total_drops (add_sand n x y s) = total_drops s + ind (in_bounds n (x, y)).
Proof.
  destruct (in_bounds n (x, y)) eqn:Hin.
  - rewrite add_sand_in by done. done.
  - rewrite add_sand_out by done. unfold ind. lia.
Qed.

Lemma add_sand_series x y s :
  avalanche_sizes (add_sand n x y s) = avalanche_sizes s.
Proof.
  destruct (in_bounds n (x, y)) eqn:Hin.
  - rewrite add_sand_in by done. done.
  - by rewrite add_sand_out.
Qed.

Lemma record_avalanche_grid size s :
  grid (record_avalanche size s) = grid s.
Proof. unfold record_avalanche. by destruct (0 <? size). Qed.

Lemma record_avalanche_total_drops size s :
  total_drops (record_avalanche size s) = total_drops s.
Proof. unfold record_avalanche. by destruct (0 <? size). Qed.

(** A full drop, relax, record cycle. *)
Lemma drop_step_inv fuel s xy s' :
  drop_step n fuel s xy = Some s' →
  ∃ g size,
    topple_loop n fuel (grid (add_sand n xy.1 xy.2 s)) 0 = Some (g, size) ∧
    grid s' = g ∧
    total_drops s' = total_drops s + ind (in_bounds n xy).
Proof.
  unfold drop_step, topple. intros H.
  destruct (topple_loop n fuel (grid (add_sand n xy.1 xy.2 s)) 0)
    as [[g size]|] eqn:E; [|done].
  simpl in H. injection H as <-. exists g, size. split; [done|].
  rewrite record_avalanche_grid, record_avalanche_total_drops. cbn [grid total_drops].
  split; [done|]. destruct xy as [x y]. apply add_sand_total_drops.
Qed.

Lemma drop_step_mono fuel fuel' s xy s' :
  drop_step n fuel s xy = Some s' → (fuel <= fuel')%nat →
  drop_step n fuel' s xy = Some s'.
Proof.
  unfold drop_step, topple. intros H Hle.
  destruct (topple_loop n fuel (grid (add_sand n xy.1 xy.2 s)) 0)
    as [r|] eqn:E; [|done].
  by rewrite (topple_loop_mono n fuel fuel' _ _ r E Hle).
Qed.

Lemma drop_all_mono fuel fuel' s drops s' :
  drop_all n fuel s drops = Some s' → (fuel <= fuel')%nat →
  drop_all n fuel' s drops = Some s'.
Proof.
  revert s. induction drops as [|xy rest IH]; intros s H Hle; [done|].
  simpl in *. destruct (drop_step n fuel s xy) as [s1|] eqn:E; [|done].
  rewrite (drop_step_mono fuel fuel' s xy s1 E Hle). simpl in *. by apply IH.
Qed.

Lemma drop_step_total s xy :
  valid_grid n (grid s) → ∃ fuel s', drop_step n fuel s xy = Some s'.
Proof.
  intros Hv. pose proof (add_sand_valid xy.1 xy.2 s Hv) as Hv1.
  destruct (topple_loop_total n _ 0 Hv1) as (fuel & [g size] & E).
  exists fuel. unfold drop_step, topple. rewrite E. simpl. eauto.
Qed.

End DropFacts.

(** * The claims *)

Section Claims.

Variable n : nat.

(** C10.  Whenever the loop condition [np.any(grid >= 4)] holds, the
    index list returned by [np.where(grid >= 4)] is not empty, so the
    defensive [break] is never taken: the iteration always runs the
    pass and continues with the relaxed grid. *)
Theorem defensive_break_unreachable (g : array2) :
  any_ge4 g = true →
  where_ge4 g ≠ [] ∧
  ∀ fuel total,
    topple_loop n (S fuel) g total =
      topple_loop n fuel (topple_pass n g)
        (total + Z.of_nat (length (where_ge4 g))).
Proof.
  intros Hany. split; [by apply any_ge4_where|].
  intros fuel total. simpl. rewrite Hany.
  by destruct (any_ge4_length g Hany) as [-> _].
Qed.

(** C2.  On a grid of the right shape, [topple] returns, and whenever
    it returns every cell of the grid is strictly below 4. *)
Theorem topple_leaves_grid_stable (s : sim) :
  valid_grid n (grid s) →
  (∃ fuel size s', topple n fuel s = Some (size, s')) ∧
  (∀ fuel size s', topple n fuel s = Some (size, s') →
     stable (grid s') ∧
     ∀ y x, (y < n)%nat → (x < n)%nat → cell (grid s') y x < 4).
Proof.
  intros Hv. split.
  - destruct (topple_loop_total n (grid s) 0 Hv) as (fuel & [g size] & E).
    exists fuel, size. unfold topple. rewrite E. simpl. eauto.
  - intros fuel size s' H. unfold topple in H.
    destruct (topple_loop n fuel (grid s) 0) as [[g sz]|] eqn:E; [|done].
    simpl in H. injection H as <- <-. cbn [grid].
    destruct (topple_loop_exit n fuel (grid s) 0 g sz Hv E)
      as ([Hs _] & Hst & _).
    split; [done|]. intros y x Hy Hx. by apply (stable_cell_lt n).
Qed.

(** C4.  The stabilization loop terminates on every grid with
    non-negative cells.  With each grain of column [x] weighed
    [(x + 1) (n - x)], every toppling lowers the weighted total by
    two at least, so the loop condition is evaluated at most
    [energy / 2 + 1] times; more fuel gives the same result. *)
Theorem topple_terminates (g : array2) :
  valid_grid n g → bounded_below 0 g →
  ∃ g' size,
    topple_loop n (S (Z.to_nat (energy n 0 g `div` 2))) g 0
      = Some (g', size) ∧
    ∀ fuel, (S (Z.to_nat (energy n 0 g `div` 2)) <= fuel)%nat →
      topple_loop n fuel g 0 = Some (g', size).
Proof.
  intros Hv Hb. pose proof (energy_nonneg n 0 g (proj1 Hv) Hb) as He.
  destruct (topple_loop_fuel n 0 (S (Z.to_nat (energy n 0 g `div` 2))) g 0
              Hv (Z.le_refl 0) Hb) as [[g' size] E].
  { rewrite Nat2Z.inj_succ, Z2Nat.id by (apply Z.div_pos; lia).
    by apply Z.mul_succ_div_gt. }
  exists g', size. split; [done|]. intros fuel Hle.
  by eapply topple_loop_mono.
Qed.

(** Successful drops of a sequence. *)
Lemma drops_accepted_cons xy rest :
  Z.of_nat (length (filter (λ d, in_bounds n d = true) (xy :: rest))) =
    ind (in_bounds n xy)
    + Z.of_nat (length (filter (λ d, in_bounds n d = true) rest)).
Proof.
  rewrite filter_cons. destruct (in_bounds n xy) eqn:E.
  - rewrite decide_True by done. rewrite length_cons. unfold ind. lia.
  - rewrite decide_False by done. unfold ind. lia.
Qed.

Lemma drop_all_balance fuel drops s s' :
  valid_grid n (grid s) → stable (grid s) →
  drop_all n fuel s drops = Some s' →
  valid_grid n (grid s') ∧ stable (grid s') ∧
  mass (grid s') + drop_all_lost n fuel s drops =
    mass (grid s)
    + Z.of_nat (length (filter (λ d, in_bounds n d = true) drops)) ∧
  total_drops s' =
    total_drops s
    + Z.of_nat (length (filter (λ d, in_bounds n d = true) drops)).
Proof.
  revert s. induction drops as [|xy rest IH]; intros s Hv Hst H.
  - simpl in *. injection H as <-.
    split; [done|]. split; [done|]. split; lia.
  - rewrite drops_accepted_cons.
    cbn [drop_all drop_all_lost] in *.
    destruct (drop_step n fuel s xy) as [s1|] eqn:E; [|done]. simpl in H.
    destruct (drop_step_inv n fuel s xy s1 E) as (g & size & Hloop & Hg & Htd).
    pose proof (add_sand_valid n xy.1 xy.2 s Hv) as Hv1.
    destruct (topple_loop_exit n fuel _ 0 g size Hv1 Hloop)
      as (Hvg & Hstg & _ & Hm).
    rewrite <- Hg in Hvg, Hstg, Hm.
    destruct (IH s1 Hvg Hstg H) as (Hv' & Hst' & Hmass & Htot).
    split; [done|]. split; [done|].
    rewrite add_sand_mass in Hm by done.
    destruct xy as [x y]. cbn [fst snd] in *. split; lia.
Qed.

Lemma drop_all_total drops s :
  valid_grid n (grid s) → stable (grid s) →
  ∃ fuel s', drop_all n fuel s drops = Some s'.
Proof.
  revert s. induction drops as [|xy rest IH]; intros s Hv Hst.
  - exists 0%nat, s. done.
  - destruct (drop_step_total n s xy Hv) as (f1 & s1 & E1).
    destruct (drop_all_balance f1 [xy] s s1 Hv Hst) as (Hv1 & Hst1 & _).
    { simpl. by rewrite E1. }
    destruct (IH s1 Hv1 Hst1) as (f2 & s' & E2).
    exists (f1 `max` f2)%nat, s'. simpl.
    rewrite (drop_step_mono n f1 _ s xy s1 E1) by lia. simpl.
    apply (drop_all_mono n f2); [done|lia].
Qed.

(** C1.  Conservation of sand.  From a grid with every cell below 4,
    any sequence of drops, each followed by a full stabilization,
    runs to completion, and afterwards the mass on the grid plus the
    grains lost off the open boundary during all toppling equals the
    initial mass plus the number of accepted (in-bounds) drops, which
    is also the increase of the drop counter. *)
Theorem sand_is_conserved (s : sim) (drops : list (Z * Z)) :
  valid_grid n (grid s) → stable (grid s) →
  (∃ fuel s', drop_all n fuel s drops = Some s') ∧
  (∀ fuel s', drop_all n fuel s drops = Some s' →
     mass (grid s') + drop_all_lost n fuel s drops =
       mass (grid s)
       + Z.of_nat (length (filter (λ d, in_bounds n d = true) drops)) ∧
     total_drops s' - total_drops s =
       Z.of_nat (length (filter (λ d, in_bounds n d = true) drops))).
Proof.
  intros Hv Hst. split; [by apply drop_all_total|].
  intros fuel s' H.
  destruct (drop_all_balance fuel drops s s' Hv Hst H) as (_ & _ & Hm & Ht).
  split; lia.
Qed.

Lemma occ_perm i l l' : l ≡ₚ l' → occ i l = occ i l'.
Proof. intros Hp. unfold occ. apply sumZ_perm. by apply fmap_Permutation. Qed.

Lemma received_perm l l' dst : l ≡ₚ l' → received n l dst = received n l' dst.
Proof. intros Hp. unfold received. apply sumZ_perm. by apply fmap_Permutation. Qed.

Lemma topple_pass_on_perm (g : array2) l l' :
  shape_ok n g → Forall (in_grid n) l' → l ≡ₚ l' →
  topple_pass_on n l g = topple_pass_on n l' g.
Proof.
  intros Hs Hin' Hp.
  assert (Forall (in_grid n) l) as Hin by (by rewrite Hp).
  destruct (topple_pass_on_spec n l g Hs Hin) as [Hs1 Hc1].
  destruct (topple_pass_on_spec n l' g Hs Hin') as [Hs2 Hc2].
  apply (array2_ext n); [done|done|]. intros y x Hy Hx.
  rewrite Hc1, Hc2 by done.
  by rewrite (occ_perm _ l l'), (received_perm l l').
Qed.

(** C3.  Determinism and pass-order independence.  The pass computed
    from any enumeration of the unstable cells (any permutation of
    the list that [np.where] returns) is the pass computed by the
    script, and a stabilization that enumerates the unstable set of
    every pass in an arbitrary order returns the same final grid and
    the same avalanche size as [topple]. *)
Theorem topple_order_independent
  (enum : array2 → list (nat * nat)) (g : array2) :
  shape_ok n g → (∀ a, enum a ≡ₚ where_ge4 a) →
  (∀ l, l ≡ₚ where_ge4 g → topple_pass_on n l g = topple_pass n g) ∧
  (∀ fuel total,
     topple_loop_by n enum fuel g total = topple_loop n fuel g total).
Proof.
  intros Hs Henum. split.
  - intros l Hp. apply topple_pass_on_perm; [done| |done].
    by apply where_ge4_in_grid.
  - intros fuel. revert g Hs. induction fuel as [|fuel IH];
      intros g Hs total; [done|].
    simpl. destruct (any_ge4 g); [|done].
    rewrite (Permutation_length (Henum g)).
    destruct (length (where_ge4 g) =? 0)%nat; [done|].
    rewrite (topple_pass_on_perm g (enum g) (where_ge4 g) Hs
               (where_ge4_in_grid n g Hs) (Henum g)).
    apply IH.
    by destruct (topple_pass_on_spec n _ g Hs (where_ge4_in_grid n g Hs)).
Qed.

(** C5, as amended.  The boundary is open, not toroidal.  After a
    pass every cell holds its old value, minus four if it was at the
    threshold, plus one for each of its neighbours inside the grid
    that was at the threshold; nothing arrives from the opposite
    edge.  The mass of the grid drops by the number of grains sent
    across an edge, which is zero for a toppling cell exactly when
    the cell is not on the border. *)
Theorem topple_pass_open_boundary (g : array2) :
  valid_grid n g →
  (∀ y x, (y < n)%nat → (x < n)%nat →
     cell (topple_pass n g) y x = relaxed n g y x) ∧
  mass (topple_pass n g) = mass g - pass_loss n g ∧
  (∀ y x, (y < n)%nat → (x < n)%nat →
     0 <= lost_at n (y, x) ∧
     (lost_at n (y, x) = 0 ↔
      (0 < x < n - 1)%nat ∧ (0 < y < n - 1)%nat)).
Proof.
  intros Hv. split; [|split].
  - intros y x Hy Hx. by apply topple_pass_relaxed.
  - by apply mass_topple_pass.
  - intros y x Hy Hx. unfold lost_at, delivered_at, ind.
    destruct (Nat.ltb_spec 0 x), (Nat.ltb_spec x (n - 1)),
      (Nat.ltb_spec 0 y), (Nat.ltb_spec y (n - 1)); lia.
Qed.

(** C6.  [add_sand] with a target outside the grid changes nothing,
    neither the grid nor the drop counter.  With a target inside the
    grid it adds one to the drop counter and one to the target cell
    and leaves every other cell as it was (the target cell being
    below the largest [int64], as every cell of a relaxed grid is). *)
Theorem add_sand_contract (x y : Z) (s : sim) :
  (¬ (0 <= x < Z.of_nat n ∧ 0 <= y < Z.of_nat n) → add_sand n x y s = s) ∧
  (0 <= x < Z.of_nat n ∧ 0 <= y < Z.of_nat n →
   valid_grid n (grid s) →
   cell (grid s) (Z.to_nat y) (Z.to_nat x) < Int64.max_int →
   total_drops (add_sand n x y s) = total_drops s + 1 ∧
   avalanche_sizes (add_sand n x y s) = avalanche_sizes s ∧
   shape_ok n (grid (add_sand n x y s)) ∧
   cell (grid (add_sand n x y s)) (Z.to_nat y) (Z.to_nat x) =
     cell (grid s) (Z.to_nat y) (Z.to_nat x) + 1 ∧
   ∀ y' x', (y', x') ≠ (Z.to_nat y, Z.to_nat x) →
     cell (grid (add_sand n x y s)) y' x' = cell (grid s) y' x').
Proof.
  split.
  - intros Hout. apply add_sand_out. apply not_true_is_false.
    by rewrite in_bounds_spec.
  - intros Hin%in_bounds_spec [Hs Hc] Hmax.
    pose proof Hin as [Hx Hy]%in_bounds_spec.
    assert (Int64.in_range (cell (grid s) (Z.to_nat y) (Z.to_nat x))) as Hr.
    { apply (cells_ok_cell n); [done|done|lia|lia]. }
    split; [by rewrite add_sand_total_drops, Hin|].
    split; [apply add_sand_series|].
    split; [apply add_sand_valid; by split|].
    split.
    + rewrite (add_sand_cell n) by done.
      by rewrite bool_decide_eq_true_2.
    + intros y' x' Hne. rewrite (add_sand_cell n) by done.
      rewrite bool_decide_eq_false_2 by done. unfold ind. lia.
Qed.

(** C7.  [record_avalanche] appends its argument to the series
    exactly when the argument is positive and touches nothing else.
    A drop on a relaxed grid that leaves its target below 4 makes
    [topple] return 0 with the grid as [add_sand] left it, and the
    whole drop cycle leaves the series unchanged. *)
Theorem record_iff_positive (size : Z) (s : sim) :
  (0 < size →
   avalanche_sizes (record_avalanche size s) = avalanche_sizes s ++ [size]) ∧
  (¬ 0 < size → record_avalanche size s = s) ∧
  grid (record_avalanche size s) = grid s ∧
  total_drops (record_avalanche size s) = total_drops s ∧
  (∀ x y fuel,
     valid_grid n (grid s) → stable (grid s) →
     0 <= x < Z.of_nat n → 0 <= y < Z.of_nat n →
     cell (grid s) (Z.to_nat y) (Z.to_nat x) + 1 < 4 →
     topple n (S fuel) (add_sand n x y s) = Some (0, add_sand n x y s) ∧
     ∃ s', drop_step n (S fuel) s (x, y) = Some s' ∧
           avalanche_sizes s' = avalanche_sizes s).
Proof.
  split; [|split; [|split; [|split]]].
  - intros Hpos%Z.ltb_lt. unfold record_avalanche. by rewrite Hpos.
  - intros Hneg. unfold record_avalanche.
    destruct (Z.ltb_spec 0 size); [lia|done].
  - apply record_avalanche_grid.
  - apply record_avalanche_total_drops.
  - intros x y fuel Hv Hst Hx Hy Hlt.
    assert (in_bounds n (x, y) = true) as Hin by (by apply in_bounds_spec).
    pose proof (add_sand_valid n x y s Hv) as [Hs1 Hc1].
    destruct Hv as [Hs Hc].
    assert (stable (grid (add_sand n x y s))) as Hst1.
    { apply (Forall_rows_cell n); [done|]. intros y' x' Hy' Hx'.
      rewrite (add_sand_cell n); [|done|done| |].
      - pose proof (stable_cell_lt n (grid s) y' x' Hs Hst Hy' Hx').
        case_bool_decide as E; unfold ind; [|lia].
        injection E as -> ->. lia.
      - apply (cells_ok_cell n); [done|done|lia|lia].
      - unfold Int64.max_int. lia. }
    assert (topple n (S fuel) (add_sand n x y s) = Some (0, add_sand n x y s))
      as Ht.
    { unfold topple. rewrite topple_loop_stable by done. simpl.
      by destruct (add_sand n x y s). }
    split; [done|].
    exists (add_sand n x y s). unfold drop_step. cbn [fst snd].
    rewrite Ht. simpl. split; [done|]. apply add_sand_series.
Qed.

End Claims.

(** ** Statistics: the degenerate histogram *)

Section StatisticsFacts.

Context {F : Type} `{NumLib F}.

Lemma length_removelast_pred {A} (l : list A) :
  length (removelast l) = pred (length l).
Proof.
  induction l as [|a [|b l] IH]; [done|done|].
  change (removelast (a :: b :: l)) with (a :: removelast (b :: l)).
  rewrite length_cons, IH. done.
Qed.

Lemma length_bin_centers sizes :
  length (bin_centers sizes) = length (bin_counts sizes).
Proof.
  unfold bin_centers, bin_counts.
  rewrite length_zip_with, length_removelast_pred, histogram_length.
  destruct (bin_edges sizes); simpl; lia.
Qed.

Lemma select_positive {A} (cs : list Z) (xs : list A) :
  length xs = length cs →
  length (select ((λ c, 0 <? c) <$> cs) xs)
    = length (filter (λ c, 0 < c) cs) ∧
  zip (select ((λ c, 0 <? c) <$> cs) xs) (select ((λ c, 0 <? c) <$> cs) cs)
    = filter (λ p, 0 < p.2) (zip xs cs).
Proof.
  revert xs. induction cs as [|c cs IH]; intros [|x xs] Hlen;
    try done.
  injection Hlen as Hlen. destruct (IH xs Hlen) as [IH1 IH2].
  rewrite fmap_cons. cbn [select zip zip_with].
  rewrite !filter_cons. cbn [snd].
  destruct (Z.ltb_spec 0 c).
  - rewrite !decide_True by done. cbn [zip zip_with length].
    split; [by rewrite IH1|]. f_equal. exact IH2.
  - rewrite !decide_False by lia. done.
Qed.

Lemma lookup_removelast {A} (l : list A) i :
  (S i < length l)%nat → removelast l !! i = l !! i.
Proof.
  revert i. induction l as [|a [|b l] IH]; intros i Hi; simpl in Hi; [lia|lia|].
  change (removelast (a :: b :: l)) with (a :: removelast (b :: l)).
  destruct i as [|i]; [done|]. simpl. apply IH. simpl. lia.
Qed.

(** The centre of bin [i] is the geometric mean of its two edges. *)
Lemma lookup_bin_centers sizes i a b :
  bin_edges sizes !! i = Some a → bin_edges sizes !! S i = Some b →
  bin_centers sizes !! i = Some (geo_mean a b).
Proof.
  intros Ha Hb. unfold bin_centers. rewrite lookup_zip_with.
  rewrite lookup_removelast by (by eapply lookup_lt_Some).
  rewrite lookup_tail, Ha, Hb. done.
Qed.

Lemma select_positive_aligned {A} (cs : list Z) (xs : list A) :
  length xs = length cs →
  length (select ((λ c, 0 <? c) <$> cs) xs)
    = length (select ((λ c, 0 <? c) <$> cs) cs) ∧
  select ((λ c, 0 <? c) <$> cs) cs = filter (λ c, 0 < c) cs.
Proof.
  revert xs. induction cs as [|c cs IH]; intros [|x xs] Hlen; try done.
  injection Hlen as Hlen. destruct (IH xs Hlen) as [IH1 IH2].
  rewrite fmap_cons. cbn [select]. rewrite filter_cons.
  destruct (Z.ltb_spec 0 c).
  - rewrite decide_True by done. cbn [length].
    split; [by rewrite IH1|]. by rewrite IH2.
  - rewrite decide_False by lia. done.
Qed.

(** C9.  When the histogram of a non-empty series has fewer than two
    non-empty bins, the function reports that the data are not enough
    for a fit, calls no regression (nothing about a fit is printed or
    drawn), and still hands the centres and counts of the non-empty
    bins to the scatter plot: there is one centre per bin, the
    geometric mean of its edges; the two arrays of the scatter plot
    have the same length; the pair of every non-empty bin stands at
    one position of the two arrays, and the arrays hold nothing else. *)
Theorem fit_degenerate (s : sim) :
  avalanche_sizes s ≠ [] →
  (length (filter (λ c : Z, (0 < c)%Z)
             (bin_counts (avalanche_sizes s))) < 2)%nat →
  plot_avalanches_enhanced s =
    [NotEnoughData;
     Scatter (filtered_centers (avalanche_sizes s))
             (filtered_counts (avalanche_sizes s));
     Figure (length (avalanche_sizes s)) (total_drops s)] ∧
  (∀ r, r ∈ plot_avalanches_enhanced s → is_fit r = false) ∧
  zip (filtered_centers (avalanche_sizes s))
      (filtered_counts (avalanche_sizes s))
    = filter (λ p, 0 < p.2)
        (zip (bin_centers (avalanche_sizes s))
             (bin_counts (avalanche_sizes s))) ∧
  length (bin_centers (avalanche_sizes s))
    = length (bin_counts (avalanche_sizes s)) ∧
  (∀ i a b,
     bin_edges (avalanche_sizes s) !! i = Some a →
     bin_edges (avalanche_sizes s) !! S i = Some b →
     bin_centers (avalanche_sizes s) !! i = Some (geo_mean a b)) ∧
  length (filtered_centers (avalanche_sizes s))
    = length (filtered_counts (avalanche_sizes s)) ∧
  filtered_counts (avalanche_sizes s)
    = filter (λ c, 0 < c) (bin_counts (avalanche_sizes s)) ∧
  (∀ i c k,
     bin_centers (avalanche_sizes s) !! i = Some c →
     bin_counts (avalanche_sizes s) !! i = Some k → 0 < k →
     ∃ j, filtered_centers (avalanche_sizes s) !! j = Some c ∧
          filtered_counts (avalanche_sizes s) !! j = Some k) ∧
  (∀ j c k,
     filtered_centers (avalanche_sizes s) !! j = Some c →
     filtered_counts (avalanche_sizes s) !! j = Some k →
     0 < k ∧
     ∃ i, bin_centers (avalanche_sizes s) !! i = Some c ∧
          bin_counts (avalanche_sizes s) !! i = Some k).
Proof.
  intros Hne Hfew.
  destruct (select_positive (bin_counts (avalanche_sizes s))
              (bin_centers (avalanche_sizes s))
              (length_bin_centers _)) as [Hlen Hzip].
  destruct (select_positive_aligned (bin_counts (avalanche_sizes s))
              (bin_centers (avalanche_sizes s))
              (length_bin_centers _)) as [Hsame Hcounts].
  fold (nonzero_mask (avalanche_sizes s)) in Hzip, Hsame, Hcounts.
  fold (filtered_centers (avalanche_sizes s)) in Hzip, Hsame.
  fold (filtered_counts (avalanche_sizes s)) in Hzip, Hsame, Hcounts.
  assert (plot_avalanches_enhanced s =
    [NotEnoughData;
     Scatter (filtered_centers (avalanche_sizes s))
             (filtered_counts (avalanche_sizes s));
     Figure (length (avalanche_sizes s)) (total_drops s)]) as E.
  { unfold plot_avalanches_enhanced.
    destruct (avalanche_sizes s) as [|v l] eqn:Es; [done|].
    unfold filtered_centers at 1, nonzero_mask. rewrite Hlen.
    apply Nat.ltb_lt in Hfew. by rewrite Hfew. }
  split; [done|]. split.
  { intros r Hr. rewrite E in Hr.
    repeat (apply elem_of_cons in Hr as [->|Hr]; [done|]).
    by apply elem_of_nil in Hr. }
  split; [done|]. split; [apply length_bin_centers|].
  split; [apply lookup_bin_centers|]. split; [done|]. split; [done|]. split.
  - intros i c k Hc Hk Hpos.
    assert ((c, k) ∈ zip (filtered_centers (avalanche_sizes s))
                         (filtered_counts (avalanche_sizes s))) as Hin.
    { rewrite Hzip. apply list_elem_of_filter. split; [done|].
      apply (list_elem_of_lookup_2 _ i). apply lookup_zip_with_Some. eauto. }
    apply list_elem_of_lookup in Hin as [j Hj].
    apply lookup_zip_with_Some in Hj as (c' & k' & [= <- <-] & Hc' & Hk').
    eauto.
  - intros j c k Hc Hk.
    assert ((c, k) ∈ filter (λ p, 0 < p.2)
              (zip (bin_centers (avalanche_sizes s))
                   (bin_counts (avalanche_sizes s)))) as Hin.
    { rewrite <- Hzip. apply (list_elem_of_lookup_2 _ j).
      apply lookup_zip_with_Some. eauto. }
    apply list_elem_of_filter in Hin as [Hpos Hin]. split; [done|].
    apply list_elem_of_lookup in Hin as [i Hi].
    apply lookup_zip_with_Some in Hi as (c' & k' & [= <- <-] & Hc' & Hk').
    eauto.
Qed.

End StatisticsFacts.

(** * Concrete runs *)

(** Cells that are unstable together topple together: each outgoing
    grain is computed from the grid before the pass. *)
Example pass_is_synchronous :
  topple_pass 3 [[4; 4; 0]; [4; 9; 0]; [0; 0; 0]]
    = [[2; 2; 1]; [2; 7; 1]; [1; 1; 0]].
Proof. vm_compute. reflexivity. Qed.

(** On the 1×1 grid the four grains of a toppling all leave. *)
Example single_cell_loses_all :
  topple_loop 1 2 [[4]] 0 = Some ([[0]], 1) ∧ topple_lost 1 2 [[4]] = 4.
Proof. split; vm_compute; reflexivity. Qed.

(** The largest [int64] wraps around under an addition. *)
Example int64_add_wraps : Int64.add Int64.max_int 1 = Int64.min_int.
Proof. vm_compute. reflexivity. Qed.

(** C8.  On a 5×5 grid of zeros, four drops on the interior cell
    [(2, 2)], each followed by [topple] and [record_avalanche]: after
    three drops the cell holds 3 and nothing was recorded; the fourth
    drop brings it to 4; [topple] then needs exactly one pass (the loop
    condition is evaluated twice) and returns 1; afterwards the cell
    is 0, its four neighbours are 1, the series is [[1]], the drop
    counter is 4 and the mass of the grid is 4. *)
Theorem interior_topple_scenario :
  ∃ s3 s4,
    simulation_step 5 1 3 (initial_state 5) = Some s3 ∧
    cell (grid s3) 2 2 = 3 ∧ avalanche_sizes s3 = [] ∧
    cell (grid (add_sand 5 2 2 s3)) 2 2 = 4 ∧
    topple 5 1 (add_sand 5 2 2 s3) = None ∧
    topple 5 2 (add_sand 5 2 2 s3) = Some (1, s4) ∧
    grid s4 = topple_pass 5 (grid (add_sand 5 2 2 s3)) ∧
    simulation_step 5 2 4 (initial_state 5) = Some (record_avalanche 1 s4) ∧
    drop_all 5 2 (initial_state 5) [(2, 2); (2, 2); (2, 2); (2, 2)]
      = Some (record_avalanche 1 s4) ∧
    grid (record_avalanche 1 s4) =
      [[0; 0; 0; 0; 0];
       [0; 0; 1; 0; 0];
       [0; 1; 0; 1; 0];
       [0; 0; 1; 0; 0];
       [0; 0; 0; 0; 0]] ∧
    cell (grid s4) 2 2 = 0 ∧
    cell (grid s4) 1 2 = 1 ∧ cell (grid s4) 3 2 = 1 ∧
    cell (grid s4) 2 1 = 1 ∧ cell (grid s4) 2 3 = 1 ∧
    avalanche_sizes (record_avalanche 1 s4) = [1] ∧
    total_drops (record_avalanche 1 s4) = 4 ∧
    mass (grid (record_avalanche 1 s4)) = 4 ∧
    drop_all_lost 5 2 (initial_state 5) [(2, 2); (2, 2); (2, 2); (2, 2)] = 0.
Proof.
  eexists _, _. split; [vm_compute; reflexivity|].
  do 4 (split; [vm_compute; reflexivity|]).
  split; [vm_compute; reflexivity|].
  repeat split; vm_compute; reflexivity.
Qed.

(** C5, the claim as written fails: on a 3×3 grid whose corner [(0, 0)]
    holds 4, one pass delivers two grains only; the cells [(0, 2)] and
    [(2, 0)], which a torus would reach, stay empty, and two grains
    leave the grid. *)
Lemma corner_topple_is_not_toroidal :
  let g := [[4; 0; 0]; [0; 0; 0]; [0; 0; 0]] in
  valid_grid 3 g ∧
  where_ge4 g = [(0, 0)%nat] ∧
  topple_pass 3 g = [[0; 1; 0]; [1; 0; 0]; [0; 0; 0]] ∧
  cell (topple_pass 3 g) 0 2 = 0 ∧
  cell (topple_pass 3 g) 2 0 = 0 ∧
  delivered_at 3 (0, 0)%nat = 2 ∧
  mass (topple_pass 3 g) = mass g - 2 ∧
  ¬ (∀ a, valid_grid 3 a → mass (topple_pass 3 a) = mass a).
Proof.
  assert (valid_grid 3 [[4; 0; 0]; [0; 0; 0]; [0; 0; 0]]) as Hv.
  { split; [split; [done|by repeat constructor]|].
    repeat constructor;
      unfold Int64.in_range, Int64.min_int, Int64.max_int; lia. }
  cbv zeta. split; [done|].
  do 6 (split; [vm_compute; reflexivity|]).
  intros Hall. specialize (Hall _ Hv). vm_compute in Hall. done.
Qed.

(** * The theorems at concrete inputs *)

Ltac concrete_valid_grid :=
  split;
  [ split; [reflexivity | repeat constructor]
  | repeat constructor;
    unfold Int64.in_range, Int64.min_int, Int64.max_int; lia ].

Ltac concrete_cells := repeat constructor; lia.

Lemma defensive_break_unreachable_witness :
  any_ge4 [[4; 0]; [0; 5]] = true ∧ where_ge4 [[4; 0]; [0; 5]] ≠ [].
Proof.
  split; [reflexivity|].
  exact (proj1 (defensive_break_unreachable 2 [[4; 0]; [0; 5]] eq_refl)).
Defined.

Lemma topple_leaves_grid_stable_witness :
  valid_grid 2 [[4; 3]; [3; 9]] ∧
  ∀ fuel size s',
    topple 2 fuel (Sim [[4; 3]; [3; 9]] [] 0) = Some (size, s') →
    stable (grid s') ∧
    ∀ y x, (y < 2)%nat → (x < 2)%nat → cell (grid s') y x < 4.
Proof.
  assert (valid_grid 2 [[4; 3]; [3; 9]]) as Hv by concrete_valid_grid.
  split; [exact Hv|].
  exact (proj2 (topple_leaves_grid_stable 2 (Sim [[4; 3]; [3; 9]] [] 0) Hv)).
Defined.

Lemma topple_terminates_witness :
  valid_grid 2 [[4; 3]; [3; 9]] ∧ bounded_below 0 [[4; 3]; [3; 9]] ∧
  ∃ g' size,
    topple_loop 2 (S (Z.to_nat (energy 2 0 [[4; 3]; [3; 9]] `div` 2)))
      [[4; 3]; [3; 9]] 0 = Some (g', size) ∧
    ∀ fuel : nat,
      le (S (Z.to_nat (energy 2 0 [[4; 3]; [3; 9]] `div` 2))) fuel →
      topple_loop 2 fuel [[4; 3]; [3; 9]] 0 = Some (g', size).
Proof.
  assert (valid_grid 2 [[4; 3]; [3; 9]]) as Hv by concrete_valid_grid.
  assert (bounded_below 0 [[4; 3]; [3; 9]]) as Hb by concrete_cells.
  split; [exact Hv|]. split; [exact Hb|].
  exact (topple_terminates 2 [[4; 3]; [3; 9]] Hv Hb).
Defined.

Lemma sand_is_conserved_witness :
  let drops := [(0, 0); (0, 0); (7, 1); (0, 0); (0, 0); (1, 0)] in
  valid_grid 3 (grid (initial_state 3)) ∧ stable (grid (initial_state 3)) ∧
  ∀ fuel s',
    drop_all 3 fuel (initial_state 3) drops = Some s' →
    mass (grid s') + drop_all_lost 3 fuel (initial_state 3) drops =
      mass (grid (initial_state 3))
      + Z.of_nat (length (filter (λ d, in_bounds 3 d = true) drops)) ∧
    total_drops s' - total_drops (initial_state 3) =
      Z.of_nat (length (filter (λ d, in_bounds 3 d = true) drops)).
Proof.
  assert (valid_grid 3 (grid (initial_state 3))) as Hv by concrete_valid_grid.
  assert (stable (grid (initial_state 3))) as Hst by concrete_cells.
  cbv zeta. split; [exact Hv|]. split; [exact Hst|].
  exact (proj2 (sand_is_conserved 3 (initial_state 3) _ Hv Hst)).
Defined.

Lemma topple_order_independent_witness :
  shape_ok 2 [[4; 3]; [3; 9]] ∧
  (∀ a : array2, reverse (where_ge4 a) ≡ₚ where_ge4 a) ∧
  topple_pass_on 2 [(1, 1)%nat; (0, 0)%nat] [[4; 3]; [3; 9]]
    = topple_pass 2 [[4; 3]; [3; 9]] ∧
  ∀ fuel total,
    topple_loop_by 2 (λ a, reverse (where_ge4 a)) fuel [[4; 3]; [3; 9]] total
      = topple_loop 2 fuel [[4; 3]; [3; 9]] total.
Proof.
  assert (shape_ok 2 [[4; 3]; [3; 9]]) as Hs
    by (split; [reflexivity | repeat constructor]).
  assert (∀ a : array2, reverse (where_ge4 a) ≡ₚ where_ge4 a) as Hp
    by (intros a; apply reverse_Permutation).
  split; [exact Hs|]. split; [exact Hp|].
  destruct (topple_order_independent 2 (λ a, reverse (where_ge4 a))
              [[4; 3]; [3; 9]] Hs Hp) as [Hpass Hloop].
  split; [|exact Hloop].
  exact (Hpass [(1, 1)%nat; (0, 0)%nat] (Hp [[4; 3]; [3; 9]])).
Defined.

Lemma topple_pass_open_boundary_witness :
  valid_grid 3 [[4; 0; 0]; [0; 5; 0]; [0; 0; 0]] ∧
  mass (topple_pass 3 [[4; 0; 0]; [0; 5; 0]; [0; 0; 0]])
    = mass [[4; 0; 0]; [0; 5; 0]; [0; 0; 0]]
      - pass_loss 3 [[4; 0; 0]; [0; 5; 0]; [0; 0; 0]].
Proof.
  assert (valid_grid 3 [[4; 0; 0]; [0; 5; 0]; [0; 0; 0]]) as Hv
    by concrete_valid_grid.
  split; [exact Hv|].
  exact (proj1 (proj2 (topple_pass_open_boundary 3 _ Hv))).
Defined.

Lemma add_sand_contract_witness :
  (¬ (0 <= 3 < Z.of_nat 3 ∧ 0 <= 1 < Z.of_nat 3) ∧
   add_sand 3 3 1 (initial_state 3) = initial_state 3) ∧
  ((0 <= 1 < Z.of_nat 3 ∧ 0 <= 2 < Z.of_nat 3) ∧
   valid_grid 3 (grid (initial_state 3)) ∧
   cell (grid (initial_state 3)) (Z.to_nat 2) (Z.to_nat 1) < Int64.max_int ∧
   total_drops (add_sand 3 1 2 (initial_state 3))
     = total_drops (initial_state 3) + 1).
Proof.
  assert (valid_grid 3 (grid (initial_state 3))) as Hv by concrete_valid_grid.
  assert (¬ (0 <= 3 < Z.of_nat 3 ∧ 0 <= 1 < Z.of_nat 3)) as Hout by lia.
  assert (0 <= 1 < Z.of_nat 3 ∧ 0 <= 2 < Z.of_nat 3) as Hin by lia.
  assert (cell (grid (initial_state 3)) (Z.to_nat 2) (Z.to_nat 1)
          < Int64.max_int) as Hmax by reflexivity.
  split.
  - split; [exact Hout|].
    exact (proj1 (add_sand_contract 3 3 1 (initial_state 3)) Hout).
  - split; [exact Hin|]. split; [exact Hv|]. split; [exact Hmax|].
    exact (proj1 (proj2 (add_sand_contract 3 1 2 (initial_state 3))
                   Hin Hv Hmax)).
Defined.

Lemma record_iff_positive_witness :
  (0 < 2 ∧
   avalanche_sizes (record_avalanche 2 (initial_state 3)) = [] ++ [2]) ∧
  (valid_grid 3 (grid (initial_state 3)) ∧ stable (grid (initial_state 3)) ∧
   topple 3 1 (add_sand 3 1 1 (initial_state 3))
     = Some (0, add_sand 3 1 1 (initial_state 3))).
Proof.
  assert (valid_grid 3 (grid (initial_state 3))) as Hv by concrete_valid_grid.
  assert (stable (grid (initial_state 3))) as Hst by concrete_cells.
  destruct (record_iff_positive 3 2 (initial_state 3))
    as (Hpos & _ & _ & _ & Hdrop).
  split.
  - split; [reflexivity|]. exact (Hpos eq_refl).
  - split; [exact Hv|]. split; [exact Hst|].
    refine (proj1 (Hdrop 1 1 0%nat Hv Hst _ _ _)); [lia|lia|reflexivity].
Defined.

Lemma fit_degenerate_witness :
  avalanche_sizes same_size_state ≠ [] ∧
  lt (length (filter (λ c : Z, 0 < c)
                (@bin_counts Z toy_numlib (avalanche_sizes same_size_state))))
     2 ∧
  @plot_avalanches_enhanced Z toy_numlib same_size_state =
    [NotEnoughData;
     Scatter (@filtered_centers Z toy_numlib (avalanche_sizes same_size_state))
             (@filtered_counts Z toy_numlib (avalanche_sizes same_size_state));
     Figure (length (avalanche_sizes same_size_state))
            (total_drops same_size_state)] ∧
  length (@bin_centers Z toy_numlib (avalanche_sizes same_size_state))
    = length (@bin_counts Z toy_numlib (avalanche_sizes same_size_state)) ∧
  length (@filtered_centers Z toy_numlib (avalanche_sizes same_size_state))
    = length (@filtered_counts Z toy_numlib (avalanche_sizes same_size_state)) ∧
  ∃ j, @filtered_centers Z toy_numlib (avalanche_sizes same_size_state) !! j
         = Some 0 ∧
       @filtered_counts Z toy_numlib (avalanche_sizes same_size_state) !! j
         = Some 3.
Proof.
  assert (avalanche_sizes same_size_state ≠ []) as Hne by discriminate.
  assert (lt (length (filter (λ c : Z, 0 < c)
                (@bin_counts Z toy_numlib (avalanche_sizes same_size_state))))
             2) as Hfew by (vm_compute; lia).
  split; [exact Hne|]. split; [exact Hfew|].
  destruct (@fit_degenerate Z toy_numlib same_size_state Hne Hfew)
    as (Hplot & _ & _ & Hbins & _ & Hlen & _ & Hall & _).
  split; [exact Hplot|]. split; [exact Hbins|]. split; [exact Hlen|].
  exact (Hall 0%nat 0 3 eq_refl eq_refl eq_refl).
Defined.

(** * Further properties of the engine *)

Section EngineFacts.

Variable n : nat.

Lemma topple_loop_total_le fuel (g : array2) total g' size :
  topple_loop n fuel g total = Some (g', size) → total <= size.
Proof.
  revert g total. induction fuel as [|fuel IH]; intros g total Hr; [done|].
  simpl in Hr. destruct (any_ge4 g).
  - destruct (length (where_ge4 g) =? 0)%nat.
    + injection Hr as _ <-. lia.
    + apply IH in Hr. lia.
  - injection Hr as _ <-. lia.
Qed.

Lemma topple_size_zero fuel (s : sim) size s' :
  topple n fuel s = Some (size, s') →
  (size = 0 ↔ stable (grid s)) ∧ (stable (grid s) → s' = s) ∧ 0 <= size.
Proof.
  unfold topple. intros H.
  destruct (topple_loop n fuel (grid s) 0) as [[g sz]|] eqn:E; [|done].
  simpl in H. injection H as <- <-.
  pose proof (topple_loop_total_le _ _ _ _ _ E) as Hle.
  destruct fuel as [|fuel]; [done|]. simpl in E.
  destruct (any_ge4 (grid s)) eqn:Hany.
  - destruct (any_ge4_length _ Hany) as [E0 Hlen]. rewrite E0 in E.
    apply topple_loop_total_le in E.
    assert (¬ stable (grid s)) as Hns.
    { intros Hst%any_ge4_false_stable. congruence. }
    split; [split; [lia|done]|]. split; [done|lia].
  - injection E as <- <-. apply any_ge4_false_stable in Hany.
    split; [done|]. split; [|done]. intros _. by destruct s.
Qed.

(** X1.  [topple] returns 0 exactly when the grid was already relaxed, and
    then it hands the state back untouched; on any other grid the size
    is at least 1. *)
Theorem topple_zero_iff_stable fuel (s : sim) size s' :
  topple n fuel s = Some (size, s') →
  (size = 0 ↔ stable (grid s)) ∧ (stable (grid s) → s' = s) ∧
  (¬ stable (grid s) → 1 <= size).
Proof.
  intros H. destruct (topple_size_zero fuel s size s' H) as (Hz & Hid & H0).
  split; [done|]. split; [done|]. intros Hns.
  destruct (decide (size = 0)) as [E|]; [|lia]. by apply Hz in E.
Qed.

Lemma lost_at_bounds i : 0 <= lost_at n i <= 4.
Proof.
  destruct i as [y x]. unfold lost_at, delivered_at, ind.
  destruct (0 <? x)%nat, (x <? n - 1)%nat, (0 <? y)%nat, (y <? n - 1)%nat; lia.
Qed.

Lemma lost_at_le_2 i : (2 <= n)%nat → lost_at n i <= 2.
Proof.
  destruct i as [y x]. intros Hn. unfold lost_at, delivered_at, ind.
  destruct (Nat.ltb_spec 0 x), (Nat.ltb_spec x (n - 1)),
    (Nat.ltb_spec 0 y), (Nat.ltb_spec y (n - 1)); lia.
Qed.

Lemma pass_loss_bounds (g : array2) :
  0 <= pass_loss n g <= 4 * Z.of_nat (length (where_ge4 g)) ∧
  ((2 <= n)%nat → pass_loss n g <= 2 * Z.of_nat (length (where_ge4 g))).
Proof.
  unfold pass_loss. induction (where_ge4 g) as [|i l IH]; [simpl; lia|].
  rewrite fmap_cons, sumZ_cons, length_cons, Nat2Z.inj_succ.
  pose proof (lost_at_bounds i). destruct IH as [IH1 IH2].
  split; [lia|]. intros Hn. pose proof (lost_at_le_2 i Hn).
  specialize (IH2 Hn). lia.
Qed.

Lemma topple_lost_bounds fuel (g : array2) total g' size :
  topple_loop n fuel g total = Some (g', size) →
  0 <= topple_lost n fuel g <= 4 * (size - total) ∧
  ((2 <= n)%nat → topple_lost n fuel g <= 2 * (size - total)).
Proof.
  revert g total. induction fuel as [|fuel IH]; intros g total Hr; [done|].
  simpl in *. destruct (any_ge4 g).
  - destruct (length (where_ge4 g) =? 0)%nat.
    + injection Hr as _ <-. lia.
    + destruct (IH _ _ Hr) as [IH1 IH2].
      destruct (pass_loss_bounds g) as [Hp1 Hp2].
      split; [lia|]. intros Hn. specialize (IH2 Hn). specialize (Hp2 Hn). lia.
  - injection Hr as _ <-. lia.
Qed.

(** X2.  Toppling never adds sand: the mass after [topple] is at most the
    mass before, and it is lower by at most four grains per toppling
    counted in the returned size (two per toppling when the grid has
    at least two rows). *)
Theorem topple_mass_bounds fuel (s : sim) size s' :
  valid_grid n (grid s) → topple n fuel s = Some (size, s') →
  mass (grid s') <= mass (grid s) ∧
  mass (grid s) - 4 * size <= mass (grid s') ∧
  ((2 <= n)%nat → mass (grid s) - 2 * size <= mass (grid s')).
Proof.
  intros Hv. unfold topple. intros H.
  destruct (topple_loop n fuel (grid s) 0) as [[g sz]|] eqn:E; [|done].
  simpl in H. injection H as <- <-. cbn [grid].
  destruct (topple_loop_exit n fuel _ 0 g sz Hv E) as (_ & _ & _ & Hm).
  destruct (topple_lost_bounds _ _ _ _ _ E) as [Hb1 Hb2].
  split; [lia|]. split; [lia|]. intros Hn. specialize (Hb2 Hn). lia.
Qed.

Lemma topple_loop_energy lo fuel (g : array2) total g' size :
  valid_grid n g → topple_loop n fuel g total = Some (g', size) →
  2 * (size - total) <= energy n lo g - energy n lo g'.
Proof.
  revert g total. induction fuel as [|fuel IH]; intros g total Hv Hr; [done|].
  simpl in Hr. destruct (any_ge4 g).
  - destruct (length (where_ge4 g) =? 0)%nat.
    + injection Hr as <- <-. lia.
    + apply IH in Hr; [|by apply valid_grid_topple_pass].
      pose proof (energy_topple_pass n lo g Hv). lia.
  - injection Hr as <- <-. lia.
Qed.

Lemma topple_loop_bounded_below lo fuel (g : array2) total g' size :
  valid_grid n g → lo <= 0 → bounded_below lo g →
  topple_loop n fuel g total = Some (g', size) → bounded_below lo g'.
Proof.
  revert g total. induction fuel as [|fuel IH]; intros g total Hv Hlo Hb Hr;
    [done|].
  simpl in Hr. destruct (any_ge4 g).
  - destruct (length (where_ge4 g) =? 0)%nat.
    + by injection Hr as <- <-.
    + eapply IH; [| |by apply bounded_below_topple_pass|exact Hr];
        [by apply valid_grid_topple_pass|done].
  - by injection Hr as <- <-.
Qed.

(** X3.  The avalanche size is bounded by the grid it starts from: twice
    the size is at most the column-weighted mass, each grain of column
    [x] weighing [(x + 1) (n - x)]. *)
Theorem topple_size_bound fuel (s : sim) size s' :
  valid_grid n (grid s) → bounded_below 0 (grid s) →
  topple n fuel s = Some (size, s') →
  2 * size <= energy n 0 (grid s).
Proof.
  intros Hv Hb. unfold topple. intros H.
  destruct (topple_loop n fuel (grid s) 0) as [[g sz]|] eqn:E; [|done].
  simpl in H. injection H as <- <-.
  pose proof (topple_loop_energy 0 _ _ _ _ _ Hv E) as He.
  destruct (topple_loop_exit n fuel _ 0 g sz Hv E) as ([Hs' _] & _).
  pose proof (topple_loop_bounded_below 0 _ _ _ _ _ Hv (Z.le_refl 0) Hb E) as Hb'.
  pose proof (energy_nonneg n 0 g Hs' Hb'). lia.
Qed.

(** X4.  A pass keeps every cell between 0 and 7: a cell below 4 receives
    at most four grains, and a cell that topples gives four away. *)
Theorem topple_pass_keeps_0_7 (g : array2) :
  valid_grid n g →
  (∀ y x, (y < n)%nat → (x < n)%nat → 0 <= cell g y x <= 7) →
  ∀ y x, (y < n)%nat → (x < n)%nat → 0 <= cell (topple_pass n g) y x <= 7.
Proof.
  intros Hv Hc y x Hy Hx. rewrite topple_pass_relaxed by done.
  specialize (Hc y x Hy Hx). unfold relaxed.
  destruct (unstable_at_cases n g y x) as [(-> & _ & _ & ?)|[-> Hlt]];
    [|specialize (Hlt Hy Hx)];
    destruct (unstable_at_cases n g y (x + 1)) as [(-> & _)|[-> _]];
    destruct (unstable_at_cases n g y (x - 1)) as [(-> & _)|[-> _]];
    destruct (unstable_at_cases n g (y + 1) x) as [(-> & _)|[-> _]];
    destruct (unstable_at_cases n g (y - 1) x) as [(-> & _)|[-> _]];
    destruct (0 <? x)%nat, (0 <? y)%nat; unfold ind; lia.
Qed.

End EngineFacts.

(** ** The drop, relax, record cycle *)

Section CycleFacts.

Variable n : nat.

Lemma add_sand_bounded_below x y s :
  valid_grid n (grid s) → stable (grid s) → bounded_below 0 (grid s) →
  bounded_below 0 (grid (add_sand n x y s)).
Proof.
  intros Hv Hst Hb. destruct (in_bounds n (x, y)) eqn:Hin;
    [|by rewrite add_sand_out].
  pose proof (add_sand_valid n x y s Hv) as [Hs' _]. destruct Hv as [Hs Hc].
  pose proof Hin as [Hx Hy]%in_bounds_spec.
  apply (Forall_rows_cell n); [done|]. intros y' x' Hy' Hx'.
  rewrite (add_sand_cell n); [|done|done| |].
  - pose proof (proj1 (Forall_rows_cell n (λ v, 0 <= v) _ Hs) Hb y' x' Hy' Hx')
      as H0. simpl in H0. unfold ind. case_bool_decide; lia.
  - apply (cells_ok_cell n); [done|done|lia|lia].
  - pose proof (stable_cell_lt n (grid s) (Z.to_nat y) (Z.to_nat x) Hs Hst).
    unfold Int64.max_int. lia.
Qed.

Lemma drop_step_relaxed fuel s xy s' :
  valid_grid n (grid s) → stable (grid s) → bounded_below 0 (grid s) →
  drop_step n fuel s xy = Some s' →
  valid_grid n (grid s') ∧ stable (grid s') ∧ bounded_below 0 (grid s').
Proof.
  intros Hv Hst Hb H.
  destruct (drop_step_inv n fuel s xy s' H) as (g & size & Hloop & <- & _).
  pose proof (add_sand_valid n xy.1 xy.2 s Hv) as Hv1.
  pose proof (add_sand_bounded_below xy.1 xy.2 s Hv Hst Hb) as Hb1.
  destruct (topple_loop_exit n fuel _ 0 _ size Hv1 Hloop) as (Hv' & Hst' & _).
  split; [done|]. split; [done|].
  by eapply (topple_loop_bounded_below n 0); [exact Hv1|done|exact Hb1|].
Qed.

Lemma drop_all_relaxed fuel s drops s' :
  valid_grid n (grid s) → stable (grid s) → bounded_below 0 (grid s) →
  drop_all n fuel s drops = Some s' →
  valid_grid n (grid s') ∧ stable (grid s') ∧ bounded_below 0 (grid s').
Proof.
  revert s. induction drops as [|xy rest IH];
    intros s Hv Hst Hb H; simpl in H.
  - by injection H as <-.
  - destruct (drop_step n fuel s xy) as [s1|] eqn:E; [|done]. simpl in H.
    destruct (drop_step_relaxed fuel s xy s1 Hv Hst Hb E) as (? & ? & ?).
    by apply (IH s1).
Qed.

(** X5.  Between drops every cell holds 0, 1, 2 or 3: a run of drops that
    starts from such a grid ends in such a grid. *)
Theorem drop_all_keeps_0_3 fuel (s : sim) drops s' :
  valid_grid n (grid s) → stable (grid s) → bounded_below 0 (grid s) →
  drop_all n fuel s drops = Some s' →
  valid_grid n (grid s') ∧
  ∀ y x, (y < n)%nat → (x < n)%nat → 0 <= cell (grid s') y x <= 3.
Proof.
  intros Hv Hst Hb H.
  destruct (drop_all_relaxed fuel s drops s' Hv Hst Hb H) as (Hv' & Hst' & Hb').
  split; [done|]. intros y x Hy Hx. destruct Hv' as [Hs' _].
  pose proof (stable_cell_lt n _ y x Hs' Hst' Hy Hx) as Hlt.
  pose proof (proj1 (Forall_rows_cell n (λ v, 0 <= v) _ Hs') Hb' y x Hy Hx)
    as Hge.
  simpl in Hge. lia.
Qed.

Lemma drop_step_series fuel s xy s' :
  stable (grid s) → drop_step n fuel s xy = Some s' →
  ∃ new,
    avalanche_sizes s' = avalanche_sizes s ++ new ∧
    Forall (λ v, 0 < v) new ∧
    Z.of_nat (length new) <= ind (in_bounds n xy).
Proof.
  intros Hst H. unfold drop_step in H.
  destruct (topple n fuel (add_sand n xy.1 xy.2 s)) as [[size s1]|] eqn:E;
    [|done].
  simpl in H. injection H as <-.
  assert (avalanche_sizes s1 = avalanche_sizes s) as Hser.
  { unfold topple in E.
    destruct (topple_loop n fuel (grid (add_sand n xy.1 xy.2 s)) 0)
      as [[g sz]|]; [|done].
    simpl in E. injection E as _ <-. cbn [avalanche_sizes].
    apply add_sand_series. }
  unfold record_avalanche. destruct (Z.ltb_spec 0 size) as [Hpos|Hnp].
  - exists [size]. cbn [avalanche_sizes]. rewrite Hser.
    split; [done|]. split; [by repeat constructor|].
    destruct xy as [x y]. destruct (in_bounds n (x, y)) eqn:Hin;
      [simpl; unfold ind; lia|].
    cbn [fst snd] in E. rewrite add_sand_out in E by done.
    destruct (topple_size_zero n _ _ _ _ E) as [Hz _].
    apply Hz in Hst. lia.
  - exists []. rewrite app_nil_r. split; [done|]. split; [constructor|].
    simpl. unfold ind. destruct (in_bounds n xy); lia.
Qed.

Lemma drop_all_appends fuel (s : sim) drops s' :
  valid_grid n (grid s) → stable (grid s) →
  drop_all n fuel s drops = Some s' →
  ∃ new,
    avalanche_sizes s' = avalanche_sizes s ++ new ∧
    Forall (λ v, 0 < v) new ∧
    Z.of_nat (length new) <=
      Z.of_nat (length (filter (λ d, in_bounds n d = true) drops)).
Proof.
  revert s. induction drops as [|xy rest IH]; intros s Hv Hst H.
  - simpl in H. injection H as <-. exists []. rewrite app_nil_r.
    split; [done|]. split; [constructor|]. simpl. lia.
  - rewrite drops_accepted_cons. cbn [drop_all] in H.
    destruct (drop_step n fuel s xy) as [s1|] eqn:E; [|done]. simpl in H.
    destruct (drop_step_series fuel s xy s1 Hst E) as (new1 & E1 & Hp1 & Hl1).
    destruct (drop_all_balance n fuel [xy] s s1 Hv Hst) as (Hv1 & Hst1 & _).
    { simpl. by rewrite E. }
    destruct (IH s1 Hv1 Hst1 H) as (new2 & E2 & Hp2 & Hl2).
    exists (new1 ++ new2). rewrite E2, E1, app_assoc.
    split; [done|]. split; [by apply Forall_app|].
    rewrite length_app, Nat2Z.inj_add. lia.
Qed.

(** X6.  The series is append-only and holds positive sizes only: a run of
    drops from a relaxed grid appends at most one entry per accepted
    drop, none for a rejected one, and every new entry is at least 1. *)
Theorem drop_all_series fuel (s : sim) drops s' :
  valid_grid n (grid s) → stable (grid s) →
  drop_all n fuel s drops = Some s' →
  ∃ new,
    avalanche_sizes s' = avalanche_sizes s ++ new ∧
    Forall (λ v, 1 <= v) new ∧
    (length new <= length (filter (λ d, in_bounds n d = true) drops))%nat.
Proof.
  intros Hv Hst H.
  destruct (drop_all_appends fuel s drops s' Hv Hst H) as (new & E & Hp & Hl).
  exists new. split; [done|]. split; [|lia].
  eapply List.Forall_impl; [|exact Hp]. simpl. intros. lia.
Qed.

(** X7.  A grain dropped on a cell that holds 3 always starts an avalanche:
    the cycle appends exactly one entry, of size at least 1. *)
Theorem drop_on_three_records fuel (s : sim) x y s' :
  valid_grid n (grid s) → stable (grid s) →
  0 <= x < Z.of_nat n → 0 <= y < Z.of_nat n →
  cell (grid s) (Z.to_nat y) (Z.to_nat x) = 3 →
  drop_step n fuel s (x, y) = Some s' →
  ∃ size, 1 <= size ∧ avalanche_sizes s' = avalanche_sizes s ++ [size].
Proof.
  intros [Hs Hc] Hst Hx Hy H3 H. unfold drop_step in H. cbn [fst snd] in H.
  destruct (topple n fuel (add_sand n x y s)) as [[size s1]|] eqn:E; [|done].
  simpl in H. injection H as <-.
  assert (in_bounds n (x, y) = true) as Hin by (by apply in_bounds_spec).
  assert (¬ stable (grid (add_sand n x y s))) as Hns.
  { intros Hst1. pose proof (add_sand_valid n x y s (conj Hs Hc)) as [Hs1 _].
    pose proof (stable_cell_lt n _ (Z.to_nat y) (Z.to_nat x) Hs1 Hst1) as Hlt.
    rewrite (add_sand_cell n) in Hlt; [|done|done| |].
    - rewrite bool_decide_eq_true_2 in Hlt by done. unfold ind in Hlt. lia.
    - apply (cells_ok_cell n); [done|done|lia|lia].
    - rewrite H3. done. }
  destruct (topple_size_zero n _ _ _ _ E) as (Hz & _ & H0).
  assert (1 <= size) as Hpos.
  { destruct (decide (size = 0)) as [E0|]; [|lia]. apply Hz in E0. done. }
  exists size. split; [done|].
  unfold record_avalanche. destruct (Z.ltb_spec 0 size); [|lia].
  cbn [avalanche_sizes]. f_equal.
  unfold topple in E.
  destruct (topple_loop n fuel (grid (add_sand n x y s)) 0) as [[g sz]|];
    [|done].
  simpl in E. injection E as _ <-. cbn [avalanche_sizes].
  apply add_sand_series.
Qed.

(** X8.  A rejected drop is a no-op for the whole cycle: with a target
    outside the grid, [add_sand], [topple] and [record_avalanche]
    together leave grid, counter and series of a relaxed state as
    they were. *)
Theorem rejected_drop_cycle_is_identity fuel (s : sim) x y :
  stable (grid s) → ¬ (0 <= x < Z.of_nat n ∧ 0 <= y < Z.of_nat n) →
  drop_step n (S fuel) s (x, y) = Some s.
Proof.
  intros Hst Hout. unfold drop_step. cbn [fst snd].
  rewrite add_sand_out.
  2:{ apply not_true_is_false. by rewrite in_bounds_spec. }
  unfold topple. rewrite topple_loop_stable by done. simpl.
  by destruct s.
Qed.

(** X9.  Two drops commute: the state after [add_sand] at two targets does
    not depend on the order of the two calls. *)
Theorem add_sand_commutes (s : sim) x1 y1 x2 y2 :
  shape_ok n (grid s) →
  add_sand n x1 y1 (add_sand n x2 y2 s) = add_sand n x2 y2 (add_sand n x1 y1 s).
Proof.
  intros Hs.
  destruct (in_bounds n (x1, y1)) eqn:H1, (in_bounds n (x2, y2)) eqn:H2.
  - rewrite (add_sand_in n x2 y2 s), (add_sand_in n x1 y1 s) by done.
    rewrite !add_sand_in by done. cbn [grid avalanche_sizes total_drops].
    apply in_bounds_spec in H1 as [Hx1 Hy1], H2 as [Hx2 Hy2].
    f_equal; try lia.
    apply (array2_ext n); [by repeat apply shape_ok_upd..|].
    intros y x Hy Hx.
    rewrite !(cell_upd n) by (by repeat apply shape_ok_upd || lia).
    repeat case_decide; destruct_and?; simplify_eq; try done;
      try congruence; exfalso; intuition lia.
  - by rewrite (add_sand_out n x2 y2), (add_sand_out n x2 y2).
  - by rewrite (add_sand_out n x1 y1), (add_sand_out n x1 y1).
  - by rewrite !add_sand_out.
Qed.

End CycleFacts.

Section CornerFacts.

Variable n : nat.

(** X10.  When the corner cell [(0, 0)] is the only unstable cell of a grid
    with at least two rows, the pass takes four grains off the corner,
    gives one to each of its two neighbours and loses the other two:
    the mass of the grid drops by exactly 2. *)
Theorem corner_topple_loses_two (g : array2) :
  (2 <= n)%nat → valid_grid n g → where_ge4 g = [(0, 0)%nat] →
  mass (topple_pass n g) = mass g - 2 ∧
  cell (topple_pass n g) 0 0 = cell g 0 0 - 4 ∧
  cell (topple_pass n g) 0 1 = cell g 0 1 + 1 ∧
  cell (topple_pass n g) 1 0 = cell g 1 0 + 1.
Proof.
  intros Hn Hv Hw. destruct n as [|[|m]] eqn:En; [lia|lia|]. rewrite <- En in *.
  split.
  - rewrite mass_topple_pass by done. unfold pass_loss. rewrite Hw.
    subst n. unfold sumZ, lost_at, delivered_at, ind. simpl. lia.
  - rewrite !topple_pass_exact by (done || lia). rewrite Hw. subst n.
    unfold occ, received, delivers, sumZ. simpl.
    repeat case_bool_decide; simplify_eq; unfold ind; simpl; lia.
Qed.

End CornerFacts.

(** * Properties of [draw_grid] *)

Section DrawingFacts.

Variables (WIDTH : Z) (GRID_SIZE : nat).

Lemma where_gt0_elem (g : array2) y x :
  (y, x) ∈ where_gt0 g ↔
  (y < length g)%nat ∧ (x < length (g !!! y))%nat ∧ 0 < cell g y x.
Proof.
  unfold where_gt0. rewrite list_elem_of_bind. split.
  - intros (y' & Hin & Hy'). apply elem_of_seq in Hy'.
    apply list_elem_of_bind in Hin as (x' & Hin & Hx').
    apply elem_of_seq in Hx'.
    destruct (Z.ltb_spec 0 (cell g y' x')); [|by apply elem_of_nil in Hin].
    apply list_elem_of_singleton in Hin. injection Hin as -> ->.
    split; [lia|]. split; [lia|done].
  - intros (Hy & Hx & Hc). exists y. split; [|apply elem_of_seq; lia].
    apply list_elem_of_bind. exists x. split; [|apply elem_of_seq; lia].
    destruct (Z.ltb_spec 0 (cell g y x)); [|lia].
    by apply list_elem_of_singleton.
Qed.

Lemma where_gt0_NoDup (g : array2) : NoDup (where_gt0 g).
Proof.
  unfold where_gt0. apply NoDup_bind; [| |apply NoDup_seq].
  - intros y1 y2 [y x] _ _ H1 H2.
    apply list_elem_of_bind in H1 as (x1 & H1 & _).
    apply list_elem_of_bind in H2 as (x2 & H2 & _).
    destruct (0 <? cell g y1 x1); [|by apply elem_of_nil in H1].
    destruct (0 <? cell g y2 x2); [|by apply elem_of_nil in H2].
    apply list_elem_of_singleton in H1, H2. congruence.
  - intros y _. apply NoDup_bind; [| |apply NoDup_seq].
    + intros x1 x2 [y' x] _ _ H1 H2.
      destruct (0 <? cell g y x1); [|by apply elem_of_nil in H1].
      destruct (0 <? cell g y x2); [|by apply elem_of_nil in H2].
      apply list_elem_of_singleton in H1, H2. congruence.
    + intros x _. destruct (0 <? cell g y x);
        [apply NoDup_singleton | apply NoDup_nil_2].
Qed.

(** The rectangle drawn for a cell that holds sand. *)
Lemma draw_cell_Some (g : array2) y x :
  0 < cell g y x →
  ∃ c,
    draw_cell WIDTH GRID_SIZE g (y, x) =
      Some (Rect c
              (Int64.wrap (Z.of_nat x * CELL_SIZE WIDTH GRID_SIZE))
              (Int64.wrap (Z.of_nat y * CELL_SIZE WIDTH GRID_SIZE))
              (CELL_SIZE WIDTH GRID_SIZE - 1) (CELL_SIZE WIDTH GRID_SIZE - 1)) ∧
    PYGAME_COLORS !! Z.to_nat (Z.min (cell g y x) 4) = Some c ∧
    c ∈ drop 1 PYGAME_COLORS ∧
    (cell g y x < 4 → c ∈ take 3 (drop 1 PYGAME_COLORS)).
Proof.
  intros Hpos. unfold draw_cell.
  change (Z.of_nat (length PYGAME_COLORS) - 1) with 4.
  assert (Z.min (cell g y x) 4 = 1 ∨ Z.min (cell g y x) 4 = 2 ∨
          Z.min (cell g y x) 4 = 3 ∨
          (Z.min (cell g y x) 4 = 4 ∧ 4 <= cell g y x)) as Hm by lia.
  destruct Hm as [E|[E|[E|[E Hge]]]]; rewrite E; simpl;
    eexists; (split; [reflexivity|]); (split; [reflexivity|]);
    (split; [apply list_elem_of_In; simpl; auto 10|]); intros Hlt;
    (lia || (apply list_elem_of_In; simpl; auto 10)).
Qed.

Lemma draw_grid_rects (g : array2) :
  ∃ rects,
    draw_grid WIDTH GRID_SIZE g = Some (Fill BACKGROUND_COLOR :: rects) ∧
    Forall2 (λ i op, draw_cell WIDTH GRID_SIZE g i = Some op)
      (where_gt0 g) rects.
Proof.
  unfold draw_grid.
  destruct (mapM (draw_cell WIDTH GRID_SIZE g) (where_gt0 g)) as [rects|] eqn:E.
  - exists rects. split; [done|]. by apply mapM_Some.
  - exfalso. apply mapM_None in E. apply Exists_exists in E as ([y x] & Hin & Hn).
    apply where_gt0_elem in Hin as (_ & _ & Hpos).
    destruct (draw_cell_Some g y x Hpos) as (c & Hc & _). congruence.
Qed.

(** X11.  [draw_grid] never fails on a palette lookup, whatever the grid
    holds: it fills the screen and then draws one rectangle per cell
    with a positive value, each in one of the four sand colours, never
    in the background colour of level 0. *)
Theorem draw_grid_total (g : array2) :
  ∃ rects,
    draw_grid WIDTH GRID_SIZE g = Some (Fill BACKGROUND_COLOR :: rects) ∧
    length rects = length (where_gt0 g) ∧
    Forall (λ op, ∃ c l t w h,
              op = Rect c l t w h ∧ c ∈ drop 1 PYGAME_COLORS) rects.
Proof.
  destruct (draw_grid_rects g) as (rects & E & HF). exists rects.
  split; [done|]. split; [symmetry; by eapply Forall2_length|].
  apply Forall_forall. intros op Hop.
  apply list_elem_of_lookup in Hop as [k Hk].
  destruct (Forall2_lookup_r _ _ _ _ _ HF Hk) as ([y x] & Hi & Hd).
  apply list_elem_of_lookup_2, where_gt0_elem in Hi as (_ & _ & Hpos).
  destruct (draw_cell_Some g y x Hpos) as (c & Hc & _ & Hin & _).
  rewrite Hc in Hd. injection Hd as <-. eauto 10.
Qed.

Lemma draw_grid_relaxed (g : array2) ops :
  stable g → draw_grid WIDTH GRID_SIZE g = Some ops →
  ∀ op, op ∈ ops →
    op = Fill BACKGROUND_COLOR ∨
    op_colour op ∈ [(30, 60, 100); (80, 40, 120); (180, 70, 100)].
Proof.
  intros Hst Hd op Hop.
  destruct (draw_grid_rects g) as (rects & E & HF).
  rewrite E in Hd. injection Hd as <-.
  apply elem_of_cons in Hop as [->|Hop]; [by left|]. right.
  apply list_elem_of_lookup in Hop as [k Hk].
  destruct (Forall2_lookup_r _ _ _ _ _ HF Hk) as ([y x] & Hi & Hd).
  apply list_elem_of_lookup_2, where_gt0_elem in Hi as (Hy & Hx & Hpos).
  destruct (draw_cell_Some g y x Hpos) as (c & Hc & _ & _ & Hin).
  rewrite Hc in Hd. injection Hd as <-. simpl. apply Hin.
  unfold stable in Hst.
  apply (Forall_lookup_total_1 _ _ y) in Hst; [|done].
  apply (Forall_lookup_total_1 _ _ x) in Hst; done.
Qed.

(** X12.  On a relaxed grid the colour of level 4, kept for cells at or
    above the threshold, is never used: every rectangle has one of the
    colours of levels 1, 2 and 3. *)
Theorem draw_grid_stable_colours (g : array2) ops :
  stable g → draw_grid WIDTH GRID_SIZE g = Some ops →
  ∀ op, op ∈ ops →
    op = Fill BACKGROUND_COLOR ∨
    op_colour op ∈ [(30, 60, 100); (80, 40, 120); (180, 70, 100)].
Proof. apply draw_grid_relaxed. Qed.

Lemma cell_size_facts :
  (0 < GRID_SIZE)%nat → 0 <= WIDTH →
  0 <= CELL_SIZE WIDTH GRID_SIZE ∧
  Z.of_nat GRID_SIZE * CELL_SIZE WIDTH GRID_SIZE <= WIDTH.
Proof.
  intros Hn Hw. unfold CELL_SIZE. split.
  - apply Z.div_pos; lia.
  - apply Z.mul_div_le. lia.
Qed.

(** X13.  Every rectangle lies inside the square window of side [WIDTH],
    and the rectangles of two different cells share no pixel. *)
Theorem draw_grid_rectangles (g : array2) rects :
  (0 < GRID_SIZE)%nat → 0 <= WIDTH <= Int64.max_int →
  shape_ok GRID_SIZE g →
  draw_grid WIDTH GRID_SIZE g = Some (Fill BACKGROUND_COLOR :: rects) →
  (∀ op px py, op ∈ rects → covers op px py →
     0 <= px < WIDTH ∧ 0 <= py < WIDTH) ∧
  (∀ i j op1 op2 px py,
     rects !! i = Some op1 → rects !! j = Some op2 → i ≠ j →
     ¬ (covers op1 px py ∧ covers op2 px py)).
Proof.
  intros Hn Hw Hs Hd.
  destruct (draw_grid_rects g) as (rects' & E & HF).
  rewrite E in Hd. injection Hd as <-.
  destruct (cell_size_facts Hn (proj1 Hw)) as [Hcs Hmul].
  set (cs := CELL_SIZE WIDTH GRID_SIZE) in *.
  assert (∀ k op, rects' !! k = Some op →
            ∃ y x c, where_gt0 g !! k = Some (y, x) ∧
              (y < GRID_SIZE)%nat ∧ (x < GRID_SIZE)%nat ∧
              op = Rect c (Z.of_nat x * cs) (Z.of_nat y * cs) (cs - 1) (cs - 1))
    as Hrect.
  { intros k op Hk.
    destruct (Forall2_lookup_r _ _ _ _ _ HF Hk) as ([y x] & Hi & Hdc).
    pose proof Hi as Hel.
    apply list_elem_of_lookup_2, where_gt0_elem in Hel as (Hy & Hx & Hpos).
    pose proof Hs as [Hlen _]. rewrite Hlen in Hy.
    rewrite (shape_ok_row GRID_SIZE g y Hs Hy) in Hx.
    destruct (draw_cell_Some g y x Hpos) as (c & Hc & _).
    rewrite Hc in Hdc. injection Hdc as <-. fold cs.
    exists y, x, c. split; [done|]. split; [done|]. split; [done|].
    rewrite !Int64Facts.wrap_id; [done|..];
      unfold Int64.in_range, Int64.min_int, Int64.max_int in *; nia. }
  split.
  - intros op px py Hop Hcov.
    apply list_elem_of_lookup in Hop as [k Hk].
    destruct (Hrect k op Hk) as (y & x & c & _ & Hy & Hx & ->).
    simpl in Hcov. nia.
  - intros i j op1 op2 px py Hi Hj Hne [Hc1 Hc2].
    destruct (Hrect i op1 Hi) as (y1 & x1 & c1 & Hw1 & _ & _ & ->).
    destruct (Hrect j op2 Hj) as (y2 & x2 & c2 & Hw2 & _ & _ & ->).
    simpl in Hc1, Hc2.
    assert ((y1, x1) ≠ (y2, x2)) as Hdiff.
    { intros Heq. apply Hne.
      eapply NoDup_lookup; [apply (where_gt0_NoDup g)|exact Hw1|].
      by rewrite Heq. }
    assert (x1 ≠ x2 ∨ y1 ≠ y2) as [Hx|Hy].
    { destruct (decide (x1 = x2)); [|by left]. right. congruence. }
    + assert (x1 < x2 ∨ x2 < x1)%nat as [?|?] by lia; nia.
    + assert (y1 < y2 ∨ y2 < y1)%nat as [?|?] by lia; nia.
Qed.

End DrawingFacts.

(** * Further properties of the statistics *)

Section StatisticsMore.

Context {F : Type} `{NumLib F}.

Lemma select_positive_counts {A} (cs : list Z) (xs : list A) :
  length xs = length cs →
  length (select ((λ c, 0 <? c) <$> cs) xs)
    = length (select ((λ c, 0 <? c) <$> cs) cs) ∧
  Forall (λ c, 0 < c) (select ((λ c, 0 <? c) <$> cs) cs) ∧
  select ((λ c, 0 <? c) <$> cs) cs = filter (λ c, 0 < c) cs.
Proof.
  revert xs. induction cs as [|c cs IH]; intros [|x xs] Hlen; try done.
  injection Hlen as Hlen. destruct (IH xs Hlen) as (IH1 & IH2 & IH3).
  rewrite fmap_cons. cbn [select]. rewrite filter_cons.
  destruct (Z.ltb_spec 0 c).
  - rewrite decide_True by done. cbn [length].
    split; [by rewrite IH1|]. split; [by constructor|]. by rewrite IH3.
  - rewrite decide_False by lia. done.
Qed.

Lemma filtered_bins_lengths (sizes : list Z) :
  length (filtered_centers sizes) = length (filtered_counts sizes) ∧
  Forall (λ c, 0 < c) (filtered_counts sizes) ∧
  filtered_counts sizes = filter (λ c, 0 < c) (bin_counts sizes).
Proof.
  unfold filtered_centers, filtered_counts, nonzero_mask.
  apply select_positive_counts, length_bin_centers.
Qed.

(** X14.  The arrays handed to the regression and to the scatter plot pair
    up, and every retained count is positive, so the logarithm of a
    count is never taken at zero; the retained counts are the positive
    counts of the histogram, in order. *)
Theorem filtered_bins_are_nonempty (sizes : list Z) :
  length (filtered_centers sizes) = length (filtered_counts sizes) ∧
  Forall (λ c, 0 < c) (filtered_counts sizes) ∧
  filtered_counts sizes = filter (λ c, 0 < c) (bin_counts sizes).
Proof. apply filtered_bins_lengths. Qed.




(** X16.  A fit is computed and reported exactly when the series is not
    empty and its histogram has at least two non-empty bins; the
    exponent reported is then [1 - slope] for the slope that the
    regression returns on the logarithms of the retained centres and
    counts. *)
Theorem fit_reported_iff (s : sim) :
  ((∃ r, r ∈ plot_avalanches_enhanced s ∧ is_fit r = true) ↔
   avalanche_sizes s ≠ [] ∧
   (2 <= length (filter (λ c : Z, (0 < c)%Z)
                   (bin_counts (avalanche_sizes s))))%nat) ∧
  (∀ tau, Exponent tau ∈ plot_avalanches_enhanced s →
     tau = one_minus
             (linregress (log10 <$> filtered_centers (avalanche_sizes s))
                (log10_int <$> filtered_counts (avalanche_sizes s))).1.1).
Proof.
  destruct (filtered_bins_lengths (avalanche_sizes s)) as (Hlen & _ & Hfil).
  unfold plot_avalanches_enhanced.
  destruct (avalanche_sizes s) as [|v l] eqn:Es.
  - split.
    + split; [|by intros [? _]].
      intros (r & Hr & Hfit). apply list_elem_of_singleton in Hr. by subst r.
    + intros tau Hin. by apply list_elem_of_singleton in Hin.
  - rewrite <- Hfil, <- Hlen.
    destruct (Nat.ltb_spec (length (filtered_centers (v :: l))) 2) as [Hlt|Hge].
    + split.
      * split; [|intros [_ ?]; lia].
        intros (r & Hr & Hfit). exfalso.
        repeat (apply elem_of_cons in Hr as [->|Hr]; [done|]).
        by apply elem_of_nil in Hr.
      * intros tau Hin. exfalso.
        repeat (apply elem_of_cons in Hin as [?|Hin]; [done|]).
        by apply elem_of_nil in Hin.
    + destruct (linregress _ _) as [[slope icpt] rv] eqn:El. split.
      * split; [intros _; by split|]. intros _.
        exists (Exponent (one_minus slope)). split; [|done].
        apply elem_of_cons. right. apply elem_of_cons. by left.
      * intros tau Hin. simpl.
        repeat (apply elem_of_cons in Hin as [Heq|Hin];
                [by (discriminate Heq || injection Heq as ->)|]).
        by apply elem_of_nil in Hin.
Qed.

End StatisticsMore.

(** * Properties of the main loop *)

Section MainFacts.

Context {F : Type} `{NumLib F}.

Variables (WIDTH : Z) (GRID_SIZE SAND_DROPS_PER_FRAME : nat).

Abbreviation frame' := (@frame F _ WIDTH GRID_SIZE SAND_DROPS_PER_FRAME).
Abbreviation main_loop' := (@main_loop F _ WIDTH GRID_SIZE SAND_DROPS_PER_FRAME).
Abbreviation invariant := (loop_invariant GRID_SIZE SAND_DROPS_PER_FRAME).

Lemma centre_in_bounds :
  (0 < GRID_SIZE)%nat → in_bounds GRID_SIZE (centre GRID_SIZE) = true.
Proof.
  intros Hn. unfold centre. apply in_bounds_spec.
  pose proof (Z.div_pos (Z.of_nat GRID_SIZE) 2 ltac:(lia) ltac:(lia)).
  pose proof (Z.div_lt (Z.of_nat GRID_SIZE) 2 ltac:(lia) ltac:(lia)). lia.
Qed.

Lemma accepted_replicate k (c : Z * Z) :
  in_bounds GRID_SIZE c = true →
  length (filter (λ d, in_bounds GRID_SIZE d = true) (replicate k c)) = k.
Proof.
  intros Hc. induction k as [|k IH]; [done|]. simpl.
  rewrite filter_cons, decide_True by done. simpl. by rewrite IH.
Qed.

Lemma handle_events_spec (events : list event) l (out : list (output F)) :
  let st := foldl handle_event (l, out) events in
  world st.1 = world l ∧ frame_count st.1 = frame_count l ∧
  (running st.1 = false ↔ running l = false ∨ QUIT ∈ events).
Proof.
  revert l out. induction events as [|e events IH]; intros l out.
  - simpl. split; [done|]. split; [done|]. split; [by left|].
    intros [?|Hin]; [done|]. by apply elem_of_nil in Hin.
  - change (foldl handle_event (l, out) (e :: events))
      with (foldl handle_event (handle_event (l, out) e) events).
    destruct (handle_event (l, out) e) as [l1 out1] eqn:E.
    destruct (IH l1 out1) as (Hw & Hf & Hr). cbv zeta.
    rewrite Hw, Hf, Hr, elem_of_cons. clear IH Hw Hf Hr.
    destruct e as [|[| |]|]; simpl in E;
      try destruct (avalanche_sizes (world l));
      injection E as <- <-; simpl; intuition congruence.
Qed.

(** The drops of one frame, from a relaxed state. *)
Lemma simulation_step_spec fuel (w w' : sim) :
  (0 < GRID_SIZE)%nat →
  valid_grid GRID_SIZE (grid w) → stable (grid w) → bounded_below 0 (grid w) →
  simulation_step GRID_SIZE fuel SAND_DROPS_PER_FRAME w = Some w' →
  valid_grid GRID_SIZE (grid w') ∧ stable (grid w') ∧
  bounded_below 0 (grid w') ∧
  total_drops w' = total_drops w + Z.of_nat SAND_DROPS_PER_FRAME ∧
  ∃ new, avalanche_sizes w' = avalanche_sizes w ++ new ∧
         Forall (λ v, 0 < v) new ∧
         (length new <= SAND_DROPS_PER_FRAME)%nat.
Proof.
  intros Hn Hv Hst Hb Hstep. unfold simulation_step in Hstep.
  pose proof (accepted_replicate SAND_DROPS_PER_FRAME _ (centre_in_bounds Hn))
    as Hacc.
  destruct (drop_all_relaxed _ _ _ _ _ Hv Hst Hb Hstep) as (Hv' & Hst' & Hb').
  destruct (drop_all_balance _ _ _ _ _ Hv Hst Hstep) as (_ & _ & _ & Htd).
  destruct (drop_all_appends _ _ _ _ _ Hv Hst Hstep) as (new & E & Hp & Hl).
  rewrite Hacc in Htd, Hl.
  split; [done|]. split; [done|]. split; [done|]. split; [done|].
  exists new. split; [done|]. split; [done|lia].
Qed.

Lemma frame_spec fuel events l l' (out : list (output F)) :
  (0 < GRID_SIZE)%nat → invariant l →
  frame' fuel events l = Some (l', out) →
  invariant l' ∧
  (running l' = false ↔ running l = false ∨ QUIT ∈ events) ∧
  (paused l' = true → world l' = world l ∧ frame_count l' = frame_count l) ∧
  (paused l' = false →
     total_drops (world l') =
       total_drops (world l) + Z.of_nat SAND_DROPS_PER_FRAME ∧
     frame_count l' = frame_count l + 1) ∧
  ∃ ops, draw_grid WIDTH GRID_SIZE (grid (world l')) = Some ops ∧
         Display ops ∈ out ∧
         ∀ ops', Display ops' ∈ out → ops' = ops.
Proof.
  intros Hn (Hv & Hst & Hb & Hfc & Htd & Hser & Hlen) Hframe.
  unfold frame in Hframe.
  pose proof (handle_events_spec events l []) as Hev.
  destruct (foldl handle_event (l, []) events) as [l1 out1] eqn:Efold.
  cbv zeta in Hev. cbn [fst snd] in Hev. destruct Hev as (Hw1 & Hf1 & Hr1).
  assert (∀ ops, Display ops ∉ out1) as Hnodisp.
  { clear -Efold.
    assert (∀ evs l0 (out0 : list (output F)) l2 out2,
              foldl handle_event (l0, out0) evs = (l2, out2) →
              (∀ ops, Display ops ∉ out0) → ∀ ops, Display ops ∉ out2) as Hgen.
    { induction evs as [|e evs IH]; intros l0 out0 l2 out2 E Hno.
      - simpl in E. by injection E as <- <-.
      - change (foldl handle_event (l0, out0) (e :: evs))
          with (foldl handle_event (handle_event (l0, out0) e) evs) in E.
        destruct (handle_event (l0, out0) e) as [l3 out3] eqn:E3.
        apply (IH _ _ _ _ E). intros ops Hin.
        destruct e as [|[| |]|]; simpl in E3.
        + injection E3 as <- <-. by apply (Hno ops).
        + injection E3 as <- <-. apply elem_of_app in Hin as [Hin|Hin];
            [by apply (Hno ops)|].
          apply list_elem_of_singleton in Hin.
          by destruct (negb (paused l0)).
        + destruct (avalanche_sizes (world l0)); injection E3 as <- <-;
            apply elem_of_app in Hin as [Hin|Hin];
            try (by apply (Hno ops));
            repeat (apply elem_of_cons in Hin as [Hin|Hin]; [done|]);
            by apply elem_of_nil in Hin.
        + injection E3 as <- <-. by apply (Hno ops).
        + injection E3 as <- <-. by apply (Hno ops). }
    apply (Hgen _ _ _ _ _ Efold). intros ops Hin. by apply elem_of_nil in Hin. }
  destruct (paused l1) eqn:Hp.
  - simpl in Hframe.
    destruct (draw_grid WIDTH GRID_SIZE (grid (world l1))) as [ops|] eqn:Ed;
      [|done].
    simpl in Hframe. injection Hframe as <- <-.
    split.
    { unfold loop_invariant. rewrite Hw1, Hf1. done. }
    split; [done|]. split; [done|]. split; [congruence|].
    exists ops. split; [done|]. split.
    + apply elem_of_app. right. by apply list_elem_of_singleton.
    + intros ops' Hin. apply elem_of_app in Hin as [Hin|Hin];
        [by apply Hnodisp in Hin|].
      apply list_elem_of_singleton in Hin. by injection Hin.
  - simpl in Hframe.
    destruct (simulation_step GRID_SIZE fuel SAND_DROPS_PER_FRAME (world l1))
      as [w|] eqn:Es; [|done].
    simpl in Hframe.
    destruct (draw_grid WIDTH GRID_SIZE (grid w)) as [ops|] eqn:Ed; [|done].
    simpl in Hframe. injection Hframe as <- <-. cbn [world frame_count running paused].
    rewrite Hw1 in Es.
    destruct (simulation_step_spec fuel _ _ Hn Hv Hst Hb Es)
      as (Hv' & Hst' & Hb' & Htd' & new & Enew & Hpos & Hlnew).
    split.
    { unfold loop_invariant. cbn [world frame_count].
      split; [done|]. split; [done|]. split; [done|]. split; [lia|].
      split; [lia|]. rewrite Enew. split.
      - apply Forall_app. split; [done|].
        eapply List.Forall_impl; [|exact Hpos]. simpl. intros. lia.
      - rewrite length_app, Nat2Z.inj_add. lia. }
    split; [done|]. split; [done|]. split; [intros _; split; [done|lia]|].
    exists ops. split; [done|]. split.
    + apply elem_of_app. right. by apply list_elem_of_singleton.
    + intros ops' Hin. apply elem_of_app in Hin as [Hin|Hin].
      * apply elem_of_app in Hin as [Hin|Hin]; [by apply Hnodisp in Hin|].
        destruct ((frame_count l1 + 1) `mod` 100 =? 0).
        -- by apply list_elem_of_singleton in Hin.
        -- by apply elem_of_nil in Hin.
      * apply list_elem_of_singleton in Hin. by injection Hin.
Qed.

Lemma initial_invariant : invariant (initial_loop_state GRID_SIZE).
Proof.
  unfold loop_invariant, initial_loop_state, initial_state.
  cbn [world grid frame_count total_drops avalanche_sizes].
  split; [split; [split|]|].
  - by rewrite length_replicate.
  - apply Forall_replicate. by rewrite length_replicate.
  - apply Forall_replicate, Forall_replicate. apply Int64Facts.in_range_0.
  - split; [by apply Forall_replicate, Forall_replicate|].
    split; [by apply Forall_replicate, Forall_replicate|].
    split; [done|]. split; [lia|]. split; [constructor|]. simpl. lia.
Qed.

Lemma main_loop_spec fuel frames l (out : list (output F)) l' out' :
  (0 < GRID_SIZE)%nat → invariant l →
  main_loop' fuel frames l out = Some (l', out') →
  invariant l' ∧ running l' = false ∧
  frame_count l' <= frame_count l + Z.of_nat (length frames) ∧
  ∀ ops, Display ops ∈ out' →
    Display ops ∈ out ∨
    ∃ g, stable g ∧ draw_grid WIDTH GRID_SIZE g = Some ops.
Proof.
  intros Hn. revert l out. induction frames as [|events rest IH];
    intros l out Hinv Hloop; simpl in Hloop.
  - destruct (running l) eqn:Hr; [done|]. injection Hloop as <- <-.
    split; [done|]. split; [done|]. split; [simpl; lia|]. intros ops ?. by left.
  - destruct (running l) eqn:Hr.
    + destruct (frame' fuel events l) as [[l1 o]|] eqn:Ef; [|done].
      simpl in Hloop.
      destruct (frame_spec _ _ _ _ _ Hn Hinv Ef)
        as (Hinv1 & _ & Hp & Hnp & ops1 & Hd1 & _ & Honly).
      destruct (IH _ _ Hinv1 Hloop) as (Hinv' & Hr' & Hfc & Hdisp).
      split; [done|]. split; [done|]. split.
      * rewrite length_cons, Nat2Z.inj_succ.
        destruct (paused l1); [destruct (Hp eq_refl)|destruct (Hnp eq_refl)];
          lia.
      * intros ops Hin. destruct (Hdisp ops Hin) as [Hin'|?]; [|by right].
        apply elem_of_app in Hin' as [?|Hin']; [by left|]. right.
        apply Honly in Hin'. subst ops. exists (grid (world l1)).
        split; [apply Hinv1|done].
    + injection Hloop as <- <-.
      split; [done|]. split; [done|]. split; [lia|]. intros ops ?. by left.
Qed.

(** X17.  When [main] ends, the drop counter is the number of frames that
    ran unpaused times the drops per frame, the grid is relaxed (every
    cell holds 0 to 3), every recorded avalanche size is at least 1, and
    there are at most as many recorded avalanches as drops. *)
Theorem main_end_state fuel frames l (out : list (output F)) :
  (0 < GRID_SIZE)%nat →
  @main F _ WIDTH GRID_SIZE SAND_DROPS_PER_FRAME fuel frames = Some (l, out) →
  running l = false ∧
  0 <= frame_count l <= Z.of_nat (length frames) ∧
  total_drops (world l) = Z.of_nat SAND_DROPS_PER_FRAME * frame_count l ∧
  (∀ y x, (y < GRID_SIZE)%nat → (x < GRID_SIZE)%nat →
     0 <= cell (grid (world l)) y x <= 3) ∧
  Forall (λ v, 1 <= v) (avalanche_sizes (world l)) ∧
  Z.of_nat (length (avalanche_sizes (world l))) <= total_drops (world l).
Proof.
  intros Hn Hmain. unfold main in Hmain.
  destruct (main_loop' fuel frames (initial_loop_state GRID_SIZE) [])
    as [[l1 o]|] eqn:E; [|done].
  simpl in Hmain. injection Hmain as <- <-.
  destruct (main_loop_spec _ _ _ _ _ _ Hn initial_invariant E)
    as ((Hv & Hst & Hb & Hfc & Htd & Hser & Hlen) & Hr & Hle & _).
  simpl in Hle. split; [done|]. split; [lia|]. split; [done|].
  split; [|done]. intros y x Hy Hx. destruct Hv as [Hs _].
  pose proof (stable_cell_lt _ _ y x Hs Hst Hy Hx) as Hlt.
  pose proof (proj1 (Forall_rows_cell _ (λ v, 0 <= v) _ Hs) Hb y x Hy Hx) as Hge.
  simpl in Hge. lia.
Qed.


(** X19.  Every picture that [main] displays is drawn from a relaxed grid:
    the colour of level 4 never reaches the screen. *)
Theorem main_never_shows_level_4 fuel frames l (out : list (output F)) :
  (0 < GRID_SIZE)%nat →
  @main F _ WIDTH GRID_SIZE SAND_DROPS_PER_FRAME fuel frames = Some (l, out) →
  ∀ ops op, Display ops ∈ out → op ∈ ops →
    op = Fill BACKGROUND_COLOR ∨
    op_colour op ∈ [(30, 60, 100); (80, 40, 120); (180, 70, 100)].
Proof.
  intros Hn Hmain ops op Hops Hop. unfold main in Hmain.
  destruct (main_loop' fuel frames (initial_loop_state GRID_SIZE) [])
    as [[l1 o]|] eqn:E; [|done].
  simpl in Hmain. injection Hmain as <- <-.
  destruct (main_loop_spec _ _ _ _ _ _ Hn initial_invariant E)
    as (_ & _ & _ & Hdisp).
  apply elem_of_app in Hops as [Hops|Hops].
  - destruct (Hdisp ops Hops) as [Hin|(g & Hst & Hd)];
      [by apply elem_of_nil in Hin|].
    by apply (draw_grid_relaxed WIDTH GRID_SIZE g ops).
  - repeat (apply elem_of_cons in Hops as [Hops|Hops]; [done|]).
    by apply elem_of_nil in Hops.
Qed.

Lemma frame_mono fuel fuel' events l r :
  frame' fuel events l = Some r → (fuel <= fuel')%nat →
  frame' fuel' events l = Some r.
Proof.
  unfold frame. intros Hf Hle.
  destruct (foldl handle_event (l, []) events) as [l1 out1].
  destruct (paused l1); [done|]. simpl in *.
  destruct (simulation_step GRID_SIZE fuel SAND_DROPS_PER_FRAME (world l1))
    as [w|] eqn:Es; [|done].
  unfold simulation_step in *.
  by rewrite (drop_all_mono _ _ _ _ _ _ Es Hle).
Qed.

Lemma main_loop_mono fuel fuel' frames l (out : list (output F)) r :
  main_loop' fuel frames l out = Some r → (fuel <= fuel')%nat →
  main_loop' fuel' frames l out = Some r.
Proof.
  revert l out. induction frames as [|events rest IH]; intros l out Hm Hle;
    [done|].
  simpl in *. destruct (running l); [|done].
  destruct (frame' fuel events l) as [[l1 o]|] eqn:Ef; [|done].
  rewrite (frame_mono _ _ _ _ _ Ef Hle). simpl in *. by apply IH.
Qed.

Lemma frame_total events l :
  invariant l → ∃ fuel r, frame' fuel events l = Some r.
Proof.
  intros (Hv & Hst & _). unfold frame.
  pose proof (handle_events_spec events l []) as Hev.
  destruct (foldl handle_event (l, []) events) as [l1 out1].
  cbv zeta in Hev. cbn [fst snd] in Hev. destruct Hev as (Hw1 & _).
  destruct (paused l1).
  - exists 0%nat. simpl.
    destruct (draw_grid_rects WIDTH GRID_SIZE (grid (world l1)))
      as (rects & -> & _).
    simpl. eauto.
  - rewrite <- Hw1 in Hv, Hst.
    destruct (drop_all_total GRID_SIZE
                (replicate SAND_DROPS_PER_FRAME (centre GRID_SIZE))
                (world l1) Hv Hst) as (fuel & w & Ew).
    exists fuel. simpl. unfold simulation_step. rewrite Ew. simpl.
    destruct (draw_grid_rects WIDTH GRID_SIZE (grid w)) as (rects & -> & _).
    simpl. eauto.
Qed.

Lemma main_loop_total frames l (out : list (output F)) :
  (0 < GRID_SIZE)%nat → invariant l →
  running l = false ∨ Exists (λ events, QUIT ∈ events) frames →
  ∃ fuel r, main_loop' fuel frames l out = Some r.
Proof.
  intros Hn. revert l out. induction frames as [|events rest IH];
    intros l out Hinv Hq.
  - destruct Hq as [Hr|Hex]; [|by apply Exists_nil in Hex].
    exists 0%nat. simpl. rewrite Hr. eauto.
  - destruct (running l) eqn:Hr;
      [|exists 0%nat; simpl; rewrite Hr; eauto].
    destruct Hq as [?|Hex]; [done|].
    destruct (frame_total events l Hinv) as (f1 & [l1 o] & Ef).
    destruct (frame_spec _ _ _ _ _ Hn Hinv Ef) as (Hinv1 & Hr1 & _).
    destruct (IH l1 (out ++ o) Hinv1) as (f2 & r & Em).
    { apply Exists_cons in Hex as [Hq|Hex]; [|by right].
      left. apply Hr1. by right. }
    exists (f1 `max` f2)%nat, r. simpl. rewrite Hr.
    rewrite (frame_mono f1 _ _ _ _ Ef) by lia. simpl.
    apply (main_loop_mono f2); [done|lia].
Qed.

(** X20.  [main] ends once a [QUIT] event has arrived: for event batches
    that contain one, the loop leaves, reports and plots. *)
Theorem main_ends_on_quit frames :
  (0 < GRID_SIZE)%nat → Exists (λ events, QUIT ∈ events) frames →
  ∃ fuel l out,
    @main F _ WIDTH GRID_SIZE SAND_DROPS_PER_FRAME fuel frames = Some (l, out) ∧
    running l = false ∧
    ∃ shown, out = shown ++
      [PrintEnded (total_drops (world l)) (length (avalanche_sizes (world l)));
       PrintPlottingFinal;
       Plot (plot_avalanches_enhanced (world l))].
Proof.
  intros Hn Hq.
  destruct (main_loop_total frames (initial_loop_state GRID_SIZE) [] Hn
              initial_invariant (or_intror Hq)) as (fuel & [l o] & E).
  destruct (main_loop_spec _ _ _ _ _ _ Hn initial_invariant E) as (_ & Hr & _).
  exists fuel, l. eexists. unfold main. rewrite E. simpl.
  split; [done|]. split; [done|]. by exists o.
Qed.

End MainFacts.

(** * The further properties at concrete inputs *)

Lemma topple_zero_iff_stable_witness :
  ∃ size s',
    topple 2 9 unstable_state = Some (size, s') ∧
    (size = 0 ↔ stable (grid unstable_state)).
Proof.
  destruct (topple 2 9 unstable_state) as [[size s']|] eqn:E;
    [|vm_compute in E; discriminate].
  exists size, s'. split; [reflexivity|].
  exact (proj1 (topple_zero_iff_stable 2 9 unstable_state size s' E)).
Defined.

Lemma topple_mass_bounds_witness :
  valid_grid 2 (grid unstable_state) ∧
  ∃ size s',
    topple 2 9 unstable_state = Some (size, s') ∧
    mass (grid s') <= mass (grid unstable_state).
Proof.
  assert (valid_grid 2 (grid unstable_state)) as Hv by concrete_valid_grid.
  split; [exact Hv|].
  destruct (topple 2 9 unstable_state) as [[size s']|] eqn:E;
    [|vm_compute in E; discriminate].
  exists size, s'. split; [reflexivity|].
  exact (proj1 (topple_mass_bounds 2 9 unstable_state size s' Hv E)).
Defined.

Lemma topple_size_bound_witness :
  valid_grid 2 (grid unstable_state) ∧
  bounded_below 0 (grid unstable_state) ∧
  ∃ size s',
    topple 2 9 unstable_state = Some (size, s') ∧
    2 * size <= energy 2 0 (grid unstable_state).
Proof.
  assert (valid_grid 2 (grid unstable_state)) as Hv by concrete_valid_grid.
  assert (bounded_below 0 (grid unstable_state)) as Hb by concrete_cells.
  split; [exact Hv|]. split; [exact Hb|].
  destruct (topple 2 9 unstable_state) as [[size s']|] eqn:E;
    [|vm_compute in E; discriminate].
  exists size, s'. split; [reflexivity|].
  exact (topple_size_bound 2 9 unstable_state size s' Hv Hb E).
Defined.

Lemma topple_pass_keeps_0_7_witness :
  valid_grid 2 [[4; 7]; [3; 5]] ∧
  (∀ y x, (y < 2)%nat → (x < 2)%nat → 0 <= cell [[4; 7]; [3; 5]] y x <= 7) ∧
  ∀ y x, (y < 2)%nat → (x < 2)%nat →
    0 <= cell (topple_pass 2 [[4; 7]; [3; 5]]) y x <= 7.
Proof.
  assert (valid_grid 2 [[4; 7]; [3; 5]]) as Hv by concrete_valid_grid.
  assert (∀ y x, (y < 2)%nat → (x < 2)%nat →
            0 <= cell [[4; 7]; [3; 5]] y x <= 7) as Hc.
  { intros [|[|y]] [|[|x]] Hy Hx; try lia; vm_compute; split; discriminate. }
  split; [exact Hv|]. split; [exact Hc|].
  exact (topple_pass_keeps_0_7 2 [[4; 7]; [3; 5]] Hv Hc).
Defined.

Lemma drop_all_keeps_0_3_witness :
  valid_grid 3 (grid loaded_state) ∧ stable (grid loaded_state) ∧
  bounded_below 0 (grid loaded_state) ∧
  ∃ s',
    drop_all 3 9 loaded_state [(1, 1); (5, 0); (1, 1); (2, 2)] = Some s' ∧
    ∀ y x, (y < 3)%nat → (x < 3)%nat → 0 <= cell (grid s') y x <= 3.
Proof.
  assert (valid_grid 3 (grid loaded_state)) as Hv by concrete_valid_grid.
  assert (stable (grid loaded_state)) as Hst by concrete_cells.
  assert (bounded_below 0 (grid loaded_state)) as Hb by concrete_cells.
  split; [exact Hv|]. split; [exact Hst|]. split; [exact Hb|].
  destruct (drop_all 3 9 loaded_state [(1, 1); (5, 0); (1, 1); (2, 2)])
    as [s'|] eqn:E; [|vm_compute in E; discriminate].
  exists s'. split; [reflexivity|].
  exact (proj2 (drop_all_keeps_0_3 3 9 loaded_state _ s' Hv Hst Hb E)).
Defined.

Lemma drop_all_series_witness :
  valid_grid 3 (grid loaded_state) ∧ stable (grid loaded_state) ∧
  ∃ s' new,
    drop_all 3 9 loaded_state [(1, 1); (5, 0); (1, 1); (2, 2)] = Some s' ∧
    avalanche_sizes s' = avalanche_sizes loaded_state ++ new ∧
    Forall (λ v, 1 <= v) new.
Proof.
  assert (valid_grid 3 (grid loaded_state)) as Hv by concrete_valid_grid.
  assert (stable (grid loaded_state)) as Hst by concrete_cells.
  split; [exact Hv|]. split; [exact Hst|].
  destruct (drop_all 3 9 loaded_state [(1, 1); (5, 0); (1, 1); (2, 2)])
    as [s'|] eqn:E; [|vm_compute in E; discriminate].
  destruct (drop_all_series 3 9 loaded_state _ s' Hv Hst E)
    as (new & Hnew & Hpos & _).
  exists s', new. split; [reflexivity|]. split; [exact Hnew|exact Hpos].
Defined.

Lemma drop_on_three_records_witness :
  valid_grid 3 (grid loaded_state) ∧ stable (grid loaded_state) ∧
  cell (grid loaded_state) (Z.to_nat 1) (Z.to_nat 0) = 3 ∧
  ∃ s' size,
    drop_step 3 9 loaded_state (0, 1) = Some s' ∧
    1 <= size ∧
    avalanche_sizes s' = avalanche_sizes loaded_state ++ [size].
Proof.
  assert (valid_grid 3 (grid loaded_state)) as Hv by concrete_valid_grid.
  assert (stable (grid loaded_state)) as Hst by concrete_cells.
  split; [exact Hv|]. split; [exact Hst|]. split; [reflexivity|].
  destruct (drop_step 3 9 loaded_state (0, 1)) as [s'|] eqn:E;
    [|vm_compute in E; discriminate].
  destruct (drop_on_three_records 3 9 loaded_state 0 1 s' Hv Hst
              ltac:(lia) ltac:(lia) eq_refl E) as (size & Hsize & Hser).
  exists s', size. split; [reflexivity|]. split; [exact Hsize|exact Hser].
Defined.

Lemma rejected_drop_cycle_is_identity_witness :
  stable (grid loaded_state) ∧
  ¬ (0 <= -1 < Z.of_nat 3 ∧ 0 <= 1 < Z.of_nat 3) ∧
  drop_step 3 1 loaded_state (-1, 1) = Some loaded_state.
Proof.
  assert (stable (grid loaded_state)) as Hst by concrete_cells.
  assert (¬ (0 <= -1 < Z.of_nat 3 ∧ 0 <= 1 < Z.of_nat 3)) as Hout by lia.
  split; [exact Hst|]. split; [exact Hout|].
  exact (rejected_drop_cycle_is_identity 3 0 loaded_state (-1) 1 Hst Hout).
Defined.

Lemma add_sand_commutes_witness :
  shape_ok 3 (grid loaded_state) ∧
  add_sand 3 0 1 (add_sand 3 2 2 loaded_state)
    = add_sand 3 2 2 (add_sand 3 0 1 loaded_state).
Proof.
  assert (shape_ok 3 (grid loaded_state)) as Hs
    by (split; [reflexivity | repeat constructor]).
  split; [exact Hs|].
  exact (add_sand_commutes 3 loaded_state 0 1 2 2 Hs).
Defined.

Lemma corner_topple_loses_two_witness :
  (2 <= 3)%nat ∧
  valid_grid 3 [[5; 3; 0]; [3; 0; 0]; [0; 0; 1]] ∧
  where_ge4 [[5; 3; 0]; [3; 0; 0]; [0; 0; 1]] = [(0, 0)%nat] ∧
  mass (topple_pass 3 [[5; 3; 0]; [3; 0; 0]; [0; 0; 1]])
    = mass [[5; 3; 0]; [3; 0; 0]; [0; 0; 1]] - 2.
Proof.
  assert (valid_grid 3 [[5; 3; 0]; [3; 0; 0]; [0; 0; 1]]) as Hv
    by concrete_valid_grid.
  split; [lia|]. split; [exact Hv|]. split; [reflexivity|].
  exact (proj1 (corner_topple_loses_two 3 _ ltac:(lia) Hv eq_refl)).
Defined.

Lemma draw_grid_stable_colours_witness :
  stable (grid loaded_state) ∧
  ∃ ops,
    draw_grid 30 3 (grid loaded_state) = Some ops ∧
    ∀ op, op ∈ ops →
      op = Fill BACKGROUND_COLOR ∨
      op_colour op ∈ [(30, 60, 100); (80, 40, 120); (180, 70, 100)].
Proof.
  assert (stable (grid loaded_state)) as Hst by concrete_cells.
  split; [exact Hst|].
  destruct (draw_grid 30 3 (grid loaded_state)) as [ops|] eqn:E;
    [|vm_compute in E; discriminate].
  exists ops. split; [reflexivity|].
  exact (draw_grid_stable_colours 30 3 (grid loaded_state) ops Hst E).
Defined.

Lemma draw_grid_rectangles_witness :
  (0 < 3)%nat ∧ 0 <= 30 <= Int64.max_int ∧
  shape_ok 3 (grid loaded_state) ∧
  ∃ rects,
    draw_grid 30 3 (grid loaded_state) = Some (Fill BACKGROUND_COLOR :: rects) ∧
    ∀ op px py, op ∈ rects → covers op px py →
      0 <= px < 30 ∧ 0 <= py < 30.
Proof.
  assert (shape_ok 3 (grid loaded_state)) as Hs
    by (split; [reflexivity | repeat constructor]).
  assert (0 <= 30 <= Int64.max_int) as Hw
    by (unfold Int64.max_int; lia).
  split; [lia|]. split; [exact Hw|]. split; [exact Hs|].
  eexists. split; [vm_compute; reflexivity|].
  refine (proj1 (draw_grid_rectangles 30 3 (grid loaded_state) _
                   ltac:(lia) Hw Hs _)).
  vm_compute. reflexivity.
Defined.


Lemma main_end_state_witness :
  (0 < 3)%nat ∧
  ∃ l out,
    @main Z toy_numlib 30 3 5 9 example_frames = Some (l, out) ∧
    running l = false ∧
    0 <= frame_count l <= Z.of_nat (length example_frames) ∧
    total_drops (world l) = Z.of_nat 5 * frame_count l.
Proof.
  split; [lia|].
  destruct (@main Z toy_numlib 30 3 5 9 example_frames) as [[l out]|] eqn:E;
    [|vm_compute in E; discriminate].
  exists l, out. split; [reflexivity|].
  destruct (@main_end_state Z toy_numlib 30 3 5 9 example_frames l out
              ltac:(lia) E) as (Hr & Hfc & Htd & _).
  split; [exact Hr|]. split; [exact Hfc|exact Htd].
Defined.


Lemma main_never_shows_level_4_witness :
  (0 < 3)%nat ∧
  ∃ l out,
    @main Z toy_numlib 30 3 5 9 example_frames = Some (l, out) ∧
    ∀ ops op, Display ops ∈ out → op ∈ ops →
      op = Fill BACKGROUND_COLOR ∨
      op_colour op ∈ [(30, 60, 100); (80, 40, 120); (180, 70, 100)].
Proof.
  split; [lia|].
  destruct (@main Z toy_numlib 30 3 5 9 example_frames) as [[l out]|] eqn:E;
    [|vm_compute in E; discriminate].
  exists l, out. split; [reflexivity|].
  exact (@main_never_shows_level_4 Z toy_numlib 30 3 5 9 example_frames l out
           ltac:(lia) E).
Defined.

Lemma main_ends_on_quit_witness :
  (0 < 3)%nat ∧ Exists (λ events, QUIT ∈ events) example_frames ∧
  ∃ fuel l out,
    @main Z toy_numlib 30 3 5 fuel example_frames = Some (l, out) ∧
    running l = false.
Proof.
  assert (Exists (λ events, QUIT ∈ events) example_frames) as Hq.
  { unfold example_frames. do 6 apply Exists_cons_tl.
    apply Exists_cons_hd. apply list_elem_of_here. }
  split; [lia|]. split; [exact Hq|].
  destruct (@main_ends_on_quit Z toy_numlib 30 3 5 example_frames
              ltac:(lia) Hq) as (fuel & l & out & Hm & Hr & _).
  exists fuel, l, out. split; [exact Hm|exact Hr].
Defined.
